(** * Federated document search: the aggregation pipeline of [open_ai_azure.py]

    A shallow embedding of [search_documents] (src/open_ai_azure.py) and of
    the pieces of the Python runtime it relies on, followed by the properties
    of the index resolution, the fan-out and the result aggregation.

    Conventions of the embedding.
    - Python [str] values are modelled as [string] (sequences of 8-bit
      characters).  Case folding, digit and white-space classification are
      the ASCII ones; characters above 127 are left alone by [lower], are
      no digits and no white space.
    - Python [int] values are [N] (marker numbers, which [\d+] makes
      non-negative) or [Z] (the citation index, which may be [-1]).
    - A document identifier is modelled by its text, [str(doc_id)]: the
      function only ever formats it, into the index name and into the keys
      of the source map.
    - The source map [all_sources] is a [gmap string string]: Python compares
      dictionaries by their key/value pairs.
    - Exceptions, logging and the local variables that the function mutates
      are threaded through a small state-and-exception monad [M].
    - The collaborators are parameters: the table [ipx_documents], the
      completion service, and the order in which the submitted requests
      complete.

    Left out: the reading of the configuration (lines 13-17), the
    construction of the client (lines 36-40, taken to succeed), the check of
    lines 60-62 (it can only log, and only when the question is no string)
    and the size of the worker pool (line 119), which bears on timing
    only.

    Beside the search function, the development covers the code that the
    search relies on for its collaborators: the names of the search
    resources ([sanitize_name], src/upload_file.py), the poller that sets
    the status of a document ([check_indexer_status], src/upload_file.py)
    and the connection manager ([DBConnectionManager], src/db_helper.py). *)

From Stdlib Require Import Ascii String.
From stdpp Require Import base option list strings gmap pretty.

Local Open Scope Z_scope.

(** ** Python string primitives *)

Module PyStr.

(** [c.isdigit()] restricted to ASCII, with the digit's value:
    [ord(c) - ord('0')] for the characters from ['0'] to ['9']. *)
Definition digit_value (c : ascii) : option N :=
  let n := N_of_ascii c in
  if ((48 <=? n) && (n <=? 57))%N then Some (n - 48)%N else None.

(** [c.isspace()] on the ASCII range: tab, line feed, vertical tab, form
    feed, carriage return, the four separators 0x1c-0x1f, and space. *)
Definition isspace (c : ascii) : bool :=
  match c with
  | "009" | "010" | "011" | "012" | "013"
  | "028" | "029" | "030" | "031" | " " => true
  | _ => false
  end%char.

(** [c.lower()] on one character. *)
Definition lower_char (c : ascii) : ascii :=
  let n := N_of_ascii c in
  if ((65 <=? n) && (n <=? 90))%N then ascii_of_N (n + 32) else c.

(** [s.lower()] *)
Fixpoint lower (s : string) : string :=
  match s with
  | "" => ""
  | String c t => String (lower_char c) (lower t)
  end.

(** [s.startswith(p)] *)
Fixpoint startswith (p s : string) : bool :=
  match p, s with
  | "", _ => true
  | String a p', String b s' => bool_decide (a = b) && startswith p' s'
  | String _ _, "" => false
  end.

(** [needle in hay] *)
Fixpoint contains (needle hay : string) : bool :=
  startswith needle hay ||
  match hay with
  | "" => false
  | String _ t => contains needle t
  end.

(** [s.lstrip()], [s.rstrip()] and [s.strip()] *)
Fixpoint lstrip (s : string) : string :=
  match s with
  | "" => ""
  | String c t => if isspace c then lstrip t else s
  end.

Fixpoint rstrip (s : string) : string :=
  match s with
  | "" => ""
  | String c t =>
      match rstrip t with
      | "" => if isspace c then "" else String c ""
      | t' => String c t'
      end
  end.

Definition strip (s : string) : string := rstrip (lstrip s).

(** [s.split(sep, 1)] for a one-character separator: at most one cut, at
    the first occurrence of [sep]. *)
Fixpoint split_once (sep : ascii) (s : string) : list string :=
  match s with
  | "" => [""]
  | String c t =>
      if bool_decide (c = sep) then [""; t]
      else match split_once sep t with
           | hd :: tl => String c hd :: tl
           | [] => [String c ""]
           end
  end.

(** [int(s)] on a string of ASCII digits, most significant digit first. *)
Fixpoint int_acc (acc : N) (s : string) : N :=
  match s with
  | "" => acc
  | String c t =>
      match digit_value c with
      | Some d => int_acc (10 * acc + d)%N t
      | None => acc
      end
  end.

Definition int (s : string) : N := int_acc 0%N s.

(** The longest prefix of digits of [s]: the greedy [\d+] / [\d*]. *)
Fixpoint digits_prefix (s : string) : string :=
  match s with
  | "" => ""
  | String c t =>
      match digit_value c with
      | Some _ => String c (digits_prefix t)
      | None => ""
      end
  end.

Fixpoint drop (n : nat) (s : string) : string :=
  match n, s with
  | O, _ => s
  | S n', String _ t => drop n' t
  | S _, "" => ""
  end.

End PyStr.

(** ** The citation-marker pattern [\[doc(\d+)\]] *)

(** A match of the pattern anchored at the start of [s]: the literal [[doc],
    a non-empty greedy run of digits, the literal []].  The digit run cannot
    give a digit back to what follows, since what follows is []], so the
    greedy run is the only candidate.  Returns the captured group and the
    length of the whole match. *)
Definition match_marker (s : string) : option (string * nat) :=
  if PyStr.startswith "[doc" s then
    let ds := PyStr.digits_prefix (PyStr.drop 4 s) in
    match ds, PyStr.drop (4 + String.length ds) s with
    | String _ _, String "]" _ => Some (ds, (4 + String.length ds + 1)%nat)
    | _, _ => None
    end
  else None.

(** [re.findall(pattern, text)]: scan from left to right; at each position
    try an anchored match; after a match resume right behind it ([skip]
    counts the characters of the current match still to be passed over),
    otherwise move one character on. *)
Fixpoint findall_from (skip : nat) (text : string) : list string :=
  match text with
  | "" => []
  | String _ t =>
      match skip with
      | S k => findall_from k t
      | O =>
          match match_marker text with
          | Some (group, len) => group :: findall_from (Nat.pred len) t
          | None => findall_from O t
          end
      end
  end.

Definition findall_doc (text : string) : list string := findall_from O text.

(** [extract_doc_numbers] (lines 149-159). *)
Definition extract_doc_numbers (text : string) : list N * bool :=
  let doc_matches := findall_doc text in
  match doc_matches with
  | _ :: _ => (PyStr.int <$> doc_matches, true)
  | [] => ([], false)
  end.

(** ** Data of the completion service and of the document table *)

(** One entry of [message.context.citations]; [title] is
    [citation.get('title', '')]. *)
Record citation := { title : string }.

(** One entry of [choices].  [content] is
    [choice.get('message', {}).get('content', '')]: a missing key reads as
    the empty string, a JSON [null] reads as [None].  [citations] is
    [message.context.citations], the empty list when absent. *)
Record choice := {
  content : option string;
  citations : list citation
}.

(** A completion object, seen through [json.loads(completion.to_json())]:
    its [choices] list, or [None] when serialising or parsing raises. *)
Record completion := { response_json : option (list choice) }.

(** A row of [ipx_documents], with the columns [search_documents] reads. *)
Record document_row := {
  row_id : Z;
  row_compound_id : string;
  row_status : string
}.

(** The collaborators of one call.  [ipx_documents] is the table as the
    [SELECT] sees it, [None] when [db.select] raises.
    [chat_completions_create n question index_name] is the answer of the
    completion service to the [n]-th submitted request, [None] when the
    request raises (transport or service error). *)
Record environment := {
  ipx_documents : option (list document_row);
  chat_completions_create : nat → string → string → option completion
}.

(** ** Effects: log records, exceptions and mutable locals *)

Inductive log_record :=
  | Info_found_indexed (n : nat) (compound_id : string)      (* line 29 *)
  | Warning_no_ids_provided                               (* line 32 *)
  | Error_select_query                                    (* db_helper, line 73 *)
  | Info_searching_index (index_name : string)            (* line 69 *)
  | Error_searching_index (doc_id : string)               (* line 105 *)
  | Warning_no_ids_available                              (* line 113 *)
  | Info_searching_across (n : nat)                       (* line 116 *)
  | Error_processing_future (doc_id : string)             (* line 128 *)
  | Info_processing_result (doc_id : string)              (* line 146 *)
  | Warning_skipping_result (doc_id : string)             (* line 212 *)
  | Error_processing_result (doc_id : string).            (* line 214 *)

Inductive exn := DatabaseError | ServiceError | JSONError | TypeError | IndexError.

Inductive outcome (A : Type) :=
  | Returned (a : A)
  | Raised (e : exn).
Arguments Returned {A} a.
Arguments Raised {A} e.

(** The mutable locals of [search_documents], and the log.
    ([collected_results] always equals the second components of
    [valid_results] and is never read; it is not kept.) *)
Record state := {
  log : list log_record;
  all_results : list (string * completion);
  all_sources : gmap string string;
  valid_results : list (string * string);
  combined_answer : string
}.

Definition initial_state : state :=
  {| log := []; all_results := []; all_sources := ∅;
     valid_results := []; combined_answer := "" |}.

(** A computation reads and updates the state and either returns or raises;
    what it did to the state before raising stays done. *)
Definition M (A : Type) : Type := state → state * outcome A.

Definition M_ret {A} (a : A) : M A := λ σ, (σ, Returned a).

Definition M_bind {A B} (f : A → M B) (m : M A) : M B := λ σ,
  match m σ with
  | (σ', Returned a) => f a σ'
  | (σ', Raised e) => (σ', Raised e)
  end.

Global Instance M_mret : MRet M := @M_ret.
Global Instance M_mbind : MBind M := @M_bind.

Definition raise {A} (e : exn) : M A := λ σ, (σ, Raised e).

(** [try: body  except Exception as e: handler] *)
Definition try_except {A} (body : M A) (handler : exn → M A) : M A := λ σ,
  match body σ with
  | (σ', Returned a) => (σ', Returned a)
  | (σ', Raised e) => handler e σ'
  end.

Definition get_state : M state := λ σ, (σ, Returned σ).

Definition logging (r : log_record) : M unit := λ σ,
  ({| log := log σ ++ [r]; all_results := all_results σ;
      all_sources := all_sources σ; valid_results := valid_results σ;
      combined_answer := combined_answer σ |}, Returned tt).

(** [all_results.append(r)] *)
Definition all_results_append (r : string * completion) : M unit := λ σ,
  ({| log := log σ; all_results := all_results σ ++ [r];
      all_sources := all_sources σ; valid_results := valid_results σ;
      combined_answer := combined_answer σ |}, Returned tt).

(** [all_sources[source_key] = file_title] *)
Definition all_sources_set (source_key file_title : string) : M unit := λ σ,
  ({| log := log σ; all_results := all_results σ;
      all_sources := <[source_key := file_title]> (all_sources σ);
      valid_results := valid_results σ;
      combined_answer := combined_answer σ |}, Returned tt).

(** Lines 207-210: [valid_results.append((doc_id, content))] and
    [combined_answer += content + "\n\n"]. *)
Definition two_newlines : string := String "010" (String "010" "").

Definition valid_results_append (doc_id content : string) : M unit := λ σ,
  ({| log := log σ; all_results := all_results σ;
      all_sources := all_sources σ;
      valid_results := valid_results σ ++ [(doc_id, content)];
      combined_answer := combined_answer σ +:+ content +:+ two_newlines |},
   Returned tt).

(** [for x in l: body(x)]; a raise in the body leaves the loop. *)
Fixpoint for_each {A} (body : A → M unit) (l : list A) : M unit :=
  match l with
  | [] => mret tt
  | x :: l' => body x ;; for_each body l'
  end.

(** ** Index resolution (lines 19-33) *)

(** The [WHERE] clause of the query of line 25:
    [compound_id = ? AND status = 'indexed']. *)
Definition indexed_for (compound_id : string) (r : document_row) : Prop :=
  row_compound_id r = compound_id ∧ row_status r = "indexed".

Global Instance indexed_for_dec compound_id r : Decision (indexed_for compound_id r).
Proof. unfold indexed_for. apply _. Defined.

(** [db.select("SELECT id FROM ipx_documents WHERE compound_id = ? AND
    status = 'indexed'", (compound_id,))]; on failure [db_helper.select]
    logs and re-raises. *)
Definition select_indexed (env : environment) (compound_id : string)
  : M (list document_row) :=
  match ipx_documents env with
  | Some rows => mret (filter (indexed_for compound_id) rows)
  | None => logging Error_select_query ;; raise DatabaseError
  end.

(** [doc_ids is None or len(doc_ids) == 0] *)
Definition none_or_empty (doc_ids : option (list string)) : bool :=
  match doc_ids with
  | None | Some [] => true
  | Some (_ :: _) => false
  end.

(** The truth value of [compound_id]: the string when it is present and
    not empty. *)
Definition truthy (compound_id : option string) : option string :=
  match compound_id with
  | Some (String c s) => Some (String c s)
  | Some "" | None => None
  end.

(** Lines 20-33.  Returns the list bound to [doc_ids] after the block, or
    [None] for the early [return] of line 33. *)
Definition resolve_doc_ids (env : environment)
    (doc_ids : option (list string)) (compound_id : option string)
  : M (option (list string)) :=
  if none_or_empty doc_ids then
    match truthy compound_id with
    | Some c =>
        results ← select_indexed env c;
        let doc_ids := (λ result, pretty (row_id result)) <$> results in
        logging (Info_found_indexed (length doc_ids) c) ;;
        mret (Some doc_ids)
    | None =>
        logging Warning_no_ids_provided ;;
        mret None
    end
  else mret (Some (default [] doc_ids)).

(** ** The per-document search client (lines 65-106) *)

Definition index_name_of (doc_id : string) : string := "index-doc-" +:+ doc_id.

(** [n] is the position of the request among the submitted ones. *)
Definition search_single_index (env : environment) (user_question : string)
    (n : nat) (doc_id : string) : M (string * option completion) :=
  try_except
    (let index_name := index_name_of doc_id in
     logging (Info_searching_index index_name) ;;
     match chat_completions_create env n user_question index_name with
     | Some completion => mret (doc_id, Some completion)
     | None => raise ServiceError
     end)
    (λ e, logging (Error_searching_index doc_id) ;; mret (doc_id, None)).

(** ** The fan-out (lines 119-128) *)

(** [arrival] lists the submitted requests, by position in [doc_ids], in
    the order in which [as_completed] yields them.  Each request is run when
    it is collected, so the log shows the workers' records in completion
    order; how the records of concurrent workers interleave is not
    modelled. *)
Definition collect (env : environment) (user_question : string)
    (doc_ids : list string) (n : nat) : M unit :=
  match doc_ids !! n with
  | Some doc_id =>
      try_except
        (r ← search_single_index env user_question n doc_id;
         match r.2 with
         | Some completion => all_results_append (r.1, completion)
         | None => mret tt
         end)
        (λ e, logging (Error_processing_future doc_id))
  | None => mret tt
  end.

Definition fan_out (env : environment) (user_question : string)
    (doc_ids : list string) (arrival : list nat) : M unit :=
  for_each (collect env user_question doc_ids) arrival.

(** ** Classification and aggregation (lines 134-224) *)

Definition negative_phrases : list string :=
  [ "not found in the retrieved data";
    "couldn't find relevant information";
    "don't have information about";
    "no information available";
    "no relevant information";
    "no data on";
    "not mentioned in" ].

(** Line 184. *)
Definition is_negative (content : string) : bool :=
  existsb (λ phrase, PyStr.contains (PyStr.lower phrase) (PyStr.lower content))
          negative_phrases.

(** Lines 198-200: the stored title. *)
Definition clean_file_title (file_title : string) : string :=
  if negb (bool_decide (file_title = "")) && PyStr.contains "_" file_title
  then default file_title (PyStr.split_once "_" file_title !! 1%nat)
  else file_title.

(** Line 202: [f"{doc_id}_{number}"]. *)
Definition source_key (doc_id : string) (number : N) : string :=
  doc_id +:+ "_" +:+ pretty number.

(** Lines 195-203, the body of [for number in doc_numbers]. *)
Definition record_source (doc_id : string) (all_citations : list citation)
    (number : N) : M unit :=
  let index := Z.of_N number - 1 in
  if bool_decide (0 ≤ index < Z.of_nat (length all_citations)) then
    match all_citations !! Z.to_nat index with
    | Some citation =>
        all_sources_set (source_key doc_id number) (clean_file_title (title citation))
    | None => raise IndexError
    end
  else mret tt.

(** Lines 163-212, the body of [for choice in ...]. *)
Definition process_choice (doc_id : string) (choice : choice) : M unit :=
  content ← match content choice with
            | Some s => mret s
            | None => raise TypeError     (* [re.findall] on a non-string *)
            end;
  let '(doc_numbers, has_doc_pattern) := extract_doc_numbers content in
  let is_negative_response := is_negative content in
  has_citations ←
    (if has_doc_pattern then
       let all_citations := citations choice in
       match all_citations with
       | _ :: _ =>
           for_each (record_source doc_id all_citations) doc_numbers ;;
           mret true
       | [] => mret false
       end
     else mret false);
  if has_citations && negb is_negative_response then
    valid_results_append doc_id content
  else
    logging (Warning_skipping_result doc_id).

(** Lines 143-214, the body of [for doc_id, completion in all_results]. *)
Definition process_result (r : string * completion) : M unit :=
  let '(doc_id, completion) := r in
  try_except
    (choices ← match response_json completion with
               | Some choices => mret choices
               | None => raise JSONError
               end;
     logging (Info_processing_result doc_id) ;;
     for_each (process_choice doc_id) choices)
    (λ e, logging (Error_processing_result doc_id)).

Definition fallback_answer : string :=
  "I don't have information about this topic in the knowledge base. Please try a different question.".

Definition no_documents_answer : string :=
  "I don't have any relevant documents to search through.".

Definition no_results_answer : string :=
  "I couldn't find relevant information in the documents.".

(** Lines 134-224: what [search_documents] does with a non-empty
    [all_results]. *)
Definition aggregate (results : list (string * completion))
  : M (string * gmap string string) :=
  for_each process_result results ;;
  σ ← get_state;
  let result :=
    match valid_results σ with
    | _ :: _ => PyStr.strip (combined_answer σ)
    | [] => fallback_answer
    end in
  mret (result, all_sources σ).

(** ** The whole function *)

(** Lines 35-224, with [doc_ids] resolved. *)
Definition search_resolved (env : environment) (arrival : list nat)
    (user_question : string) (doc_ids : list string)
  : M (string * gmap string string) :=
  match doc_ids with
  | [] =>
      logging Warning_no_ids_available ;;
      mret (no_documents_answer, ∅)
  | _ :: _ =>
      logging (Info_searching_across (length doc_ids)) ;;
      fan_out env user_question doc_ids arrival ;;
      σ ← get_state;
      match all_results σ with
      | [] => mret (no_results_answer, ∅)
      | _ :: _ => aggregate (all_results σ)
      end
  end.

Definition search_documents (env : environment) (arrival : list nat)
    (user_question : string) (doc_ids : option (list string))
    (compound_id : option string) : M (string * gmap string string) :=
  resolved ← resolve_doc_ids env doc_ids compound_id;
  match resolved with
  | None => mret (no_documents_answer, ∅)
  | Some doc_ids => search_resolved env arrival user_question doc_ids
  end.

(** One call of [search_documents], from fresh locals. *)
Definition run_search (env : environment) (arrival : list nat)
    (user_question : string) (doc_ids : option (list string))
    (compound_id : option string) : state * outcome (string * gmap string string) :=
  search_documents env arrival user_question doc_ids compound_id initial_state.

(** The aggregation stage alone, on the results that the fan-out collected. *)
Definition run_aggregate (results : list (string * completion))
  : state * outcome (string * gmap string string) :=
  aggregate results
    {| log := []; all_results := results; all_sources := ∅;
       valid_results := []; combined_answer := "" |}.

(** ** Effect summaries used by the proofs *)

(** The dictionary after a sequence of item assignments. *)
Definition apply_writes (ws : list (string * string)) (m : gmap string string)
  : gmap string string :=
  foldl (λ m kv, <[kv.1 := kv.2]> m) m ws.

(** The value that the last assignment to [k] in [ws] gives it. *)
Fixpoint last_write (k : string) (ws : list (string * string)) : option string :=
  match ws with
  | [] => None
  | kv :: ws' =>
      match last_write k ws' with
      | Some v => Some v
      | None => if decide (kv.1 = k) then Some kv.2 else None
      end
  end.

(** What [combined_answer] gains from a list of appended results. *)
Definition answer_text (vs : list (string * string)) : string :=
  foldr (λ v acc, v.2 +:+ two_newlines +:+ acc) "" vs.

(** The state after more log records [lg], the assignments [ws] to
    [all_sources] and the results [vs] appended to [valid_results]. *)
Definition extend (σ : state) (lg : list log_record)
    (ws vs : list (string * string)) : state :=
  {| log := log σ ++ lg;
     all_results := all_results σ;
     all_sources := apply_writes ws (all_sources σ);
     valid_results := valid_results σ ++ vs;
     combined_answer := combined_answer σ +:+ answer_text vs |}.

(** [m] assigns [ws], appends [vs] and ends with [o], from every state. *)
Definition frames {A} (m : M A) (ws vs : list (string * string))
    (o : outcome A) : Prop :=
  ∀ σ, ∃ lg, m σ = (extend σ lg ws vs, o).

(** The source-map entry, if any, that marker [number] produces. *)
Definition source_entry (doc_id : string) (all_citations : list citation)
    (number : N) : option (string * string) :=
  if bool_decide (0 ≤ Z.of_N number - 1 < Z.of_nat (length all_citations)) then
    (λ citation, (source_key doc_id number, clean_file_title (title citation)))
      <$> all_citations !! Z.to_nat (Z.of_N number - 1)
  else None.

(** The result has citations (line 191 reached). *)
Definition has_citations (text : string) (all_citations : list citation) : bool :=
  (extract_doc_numbers text).2 && negb (bool_decide (all_citations = [])).

(** The condition of line 206. *)
Definition contributes (text : string) (all_citations : list citation) : bool :=
  has_citations text all_citations && negb (is_negative text).

Definition choice_writes (doc_id : string) (c : choice) : list (string * string) :=
  match content c with
  | Some text =>
      if has_citations text (citations c)
      then omap (source_entry doc_id (citations c)) (extract_doc_numbers text).1
      else []
  | None => []
  end.

Definition choice_valid (doc_id : string) (c : choice) : list (string * string) :=
  match content c with
  | Some text => if contributes text (citations c) then [(doc_id, text)] else []
  | None => []
  end.

(** The choices that the loop of line 162 gets through: those before the
    first one whose processing raises. *)
Fixpoint reached (cs : list choice) : list choice :=
  match cs with
  | [] => []
  | c :: cs' => match content c with Some _ => c :: reached cs' | None => [] end
  end.

Definition result_choices (r : string * completion) : list choice :=
  match response_json r.2 with
  | Some cs => reached cs
  | None => []
  end.

Definition result_writes (r : string * completion) : list (string * string) :=
  result_choices r ≫= choice_writes r.1.

Definition result_valid (r : string * completion) : list (string * string) :=
  result_choices r ≫= choice_valid r.1.

(** The answer made of the texts [vs], as lines 217-222 make it. *)
Definition joined_answer (vs : list (string * string)) : string :=
  match vs with
  | _ :: _ => PyStr.strip (answer_text vs)
  | [] => fallback_answer
  end.

(** A string of ASCII digits. *)
Fixpoint all_digits (s : string) : bool :=
  match s with
  | "" => true
  | String c t => bool_decide (is_Some (PyStr.digit_value c)) && all_digits t
  end.

(** The state after more log records [lg] and the results [rs] appended to
    [all_results]: what resolution and fan-out do. *)
Definition advance (σ : state) (lg : list log_record)
    (rs : list (string * completion)) : state :=
  {| log := log σ ++ lg;
     all_results := all_results σ ++ rs;
     all_sources := all_sources σ;
     valid_results := valid_results σ;
     combined_answer := combined_answer σ |}.

(** What the request at position [n] adds to [all_results]. *)
Definition collected (env : environment) (user_question : string)
    (doc_ids : list string) (n : nat) : option (string * completion) :=
  doc_id ← doc_ids !! n;
  completion ← chat_completions_create env n user_question (index_name_of doc_id);
  Some (doc_id, completion).

(** A result with one choice, its answer text and its citation titles. *)
Definition answered (text : string) (titles : list string) : completion :=
  {| response_json :=
       Some [ {| content := Some text;
                 citations := (λ t, {| title := t |}) <$> titles |} ] |}.


(** ** Names of the search resources (upload_file.py, lines 66-82) *)

Module PyText.

(** [s[:n]] *)
Fixpoint take (n : nat) (s : string) : string :=
  match n, s with
  | S n', String c t => String c (take n' t)
  | _, _ => ""
  end.

(** [s.lstrip(ch)], [s.rstrip(ch)] and [s.strip(ch)] for a one-character
    argument. *)
Fixpoint lstrip_char (ch : ascii) (s : string) : string :=
  match s with
  | "" => ""
  | String c t => if bool_decide (c = ch) then lstrip_char ch t else s
  end.

Fixpoint rstrip_char (ch : ascii) (s : string) : string :=
  match s with
  | "" => ""
  | String c t =>
      match rstrip_char ch t with
      | "" => if bool_decide (c = ch) then "" else String c ""
      | t' => String c t'
      end
  end.

Definition strip_char (ch : ascii) (s : string) : string :=
  rstrip_char ch (lstrip_char ch s).

(** Every character of [s] satisfies [p]. *)
Fixpoint all_chars (p : ascii → bool) (s : string) : bool :=
  match s with
  | "" => true
  | String c t => p c && all_chars p t
  end.

End PyText.

(** The character class [[a-z0-9-]]. *)
Definition is_name_char (c : ascii) : bool :=
  let n := N_of_ascii c in
  ((97 <=? n) && (n <=? 122) || (48 <=? n) && (n <=? 57) || (n =? 45))%N.

(** The characters of a [hexdigest()]: [[0-9a-f]]. *)
Definition is_hex_char (c : ascii) : bool :=
  let n := N_of_ascii c in
  ((48 <=? n) && (n <=? 57) || (97 <=? n) && (n <=? 102))%N.

(** [re.sub(r'[^a-z0-9-]', '-', s)] *)
Fixpoint replace_invalid (s : string) : string :=
  match s with
  | "" => ""
  | String c t => String (if is_name_char c then c else "-"%char) (replace_invalid t)
  end.

(** [sanitize_name].  [md5_hexdigest name] stands for
    [hashlib.md5(name.encode()).hexdigest()]. *)
Definition sanitize_name (md5_hexdigest : string → string) (name : string)
  : string :=
  let sanitized := replace_invalid (PyStr.lower name) in
  let sanitized := PyText.strip_char "-" sanitized in
  let sanitized :=
    if bool_decide (sanitized = "")
    then "idx-" +:+ PyText.take 8 (md5_hexdigest name)
    else sanitized in
  PyText.take 128 sanitized.

(** ** The connection manager (db_helper.py, lines 171-263) *)

(** The class attributes [_connection_string] and [_instance] of
    [DBConnectionManager]; an instance is known by the rank of its
    creation, and [created] counts the instances made so far. *)
Record manager := {
  _connection_string : option string;
  _instance : option nat;
  created : nat
}.

(** The class as the module leaves it. *)
Definition manager_class : manager :=
  {| _connection_string := None; _instance := None; created := 0 |}.

(** [DBConnectionManager.initialize(connection_string)]; the argument is
    [None] when [os.getenv] found no value. *)
Definition initialize (connection_string : option string) (m : manager) : manager :=
  {| _connection_string := connection_string;
     _instance := _instance m; created := created m |}.

(** [DBConnectionManager.get_instance()]: the instance, or [None] for the
    [RuntimeError]. *)
Definition get_instance (m : manager) : manager * option nat :=
  match _connection_string m with
  | None => (m, None)
  | Some _ =>
      match _instance m with
      | Some i => (m, Some i)
      | None =>
          ({| _connection_string := _connection_string m;
              _instance := Some (created m); created := S (created m) |},
           Some (created m))
      end
  end.

(** A use of the class: a call to [initialize] or to [get_instance]. *)
Inductive manager_call :=
  | Initialize (connection_string : option string)
  | GetInstance.

(** The class after a sequence of calls, with what the calls to
    [get_instance] returned, in order. *)
Fixpoint run_calls (calls : list manager_call) (m : manager)
  : manager * list (option nat) :=
  match calls with
  | [] => (m, [])
  | Initialize s :: calls' => run_calls calls' (initialize s m)
  | GetInstance :: calls' =>
      let '(m', r) := get_instance m in
      let '(m'', rs) := run_calls calls' m' in
      (m'', r :: rs)
  end.

(** ** The indexing-status poller (upload_file.py, lines 204-262) *)

(** [status.last_result] as the poller reads it: its [status] and its
    [error_message]. *)
Record indexer_result := {
  result_status : string;
  result_error_message : option string
}.

(** One call of [indexer_client.get_indexer_status]: it raises, or it
    gives a status whose [last_result] is absent or present. *)
Inductive poll :=
  | Poll_raises
  | Polled (last_result : option indexer_result).

(** The collaborators of one run: the answer to the poll of each attempt,
    and whether the [UPDATE] issued in an attempt succeeds (the one after
    the loop is asked under the number [max_retries]). *)
Record poller_env := {
  get_indexer_status : nat → poll;
  execute_update_ok : nat → bool
}.

(** The columns of the document's row that the poller writes, and what the
    run has done so far. *)
Record poller_state := {
  doc_status : string;
  doc_error_message : option string;
  polls : nat;
  sleeps : nat;
  writes : nat
}.

Definition polled (st : poller_state) : poller_state :=
  {| doc_status := doc_status st; doc_error_message := doc_error_message st;
     polls := S (polls st); sleeps := sleeps st; writes := writes st |}.

(** [time.sleep(delay_seconds)] *)
Definition slept (st : poller_state) : poller_state :=
  {| doc_status := doc_status st; doc_error_message := doc_error_message st;
     polls := polls st; sleeps := S (sleeps st); writes := writes st |}.

(** A successful [UPDATE ipx_documents SET status = ? WHERE id = ?] *)
Definition set_status (new_status : string) (st : poller_state) : poller_state :=
  {| doc_status := new_status; doc_error_message := doc_error_message st;
     polls := polls st; sleeps := sleeps st; writes := S (writes st) |}.

(** A successful [UPDATE ipx_documents SET status = ?, error_message = ?
    WHERE id = ?] *)
Definition set_status_and_message (new_status message : string)
    (st : poller_state) : poller_state :=
  {| doc_status := new_status; doc_error_message := Some message;
     polls := polls st; sleeps := sleeps st; writes := S (writes st) |}.

(** [error_message if error_message else fallback] *)
Definition message_or (fallback : string) (error_message : option string) : string :=
  match error_message with
  | Some (String c s) => String c s
  | Some "" | None => fallback
  end.

(** The body of the loop for one [attempt]; the flag tells that the
    function returned.  An [UPDATE] that fails raises inside the [try]:
    the handler logs, sleeps, and the loop goes on. *)
Definition poll_once (env : poller_env) (attempt : nat) (st : poller_state)
  : poller_state * bool :=
  let st := polled st in
  match get_indexer_status env attempt with
  | Poll_raises => (slept st, false)
  | Polled None => (slept st, false)
  | Polled (Some last_result) =>
      if bool_decide (result_status last_result = "success") then
        if execute_update_ok env attempt
        then (set_status "indexed" st, true)
        else (slept st, false)
      else if bool_decide (result_status last_result = "transientFailure")
              || bool_decide (result_status last_result = "warning") then
        if execute_update_ok env attempt
        then (set_status_and_message "warning"
                ("Indexer warning: " +:+
                 message_or "Unknown warning" (result_error_message last_result)) st,
              true)
        else (slept st, false)
      else if bool_decide (result_status last_result = "failed") then
        if execute_update_ok env attempt
        then (set_status_and_message "failed"
                ("Indexer failed: " +:+
                 message_or "Unknown error" (result_error_message last_result)) st,
              true)
        else (slept st, false)
      else (slept st, false)
  end.

(** [for attempt in range(max_retries)], from [attempt] on, with
    [remaining] attempts left. *)
Fixpoint poll_loop (env : poller_env) (attempt remaining : nat)
    (st : poller_state) : poller_state * bool :=
  match remaining with
  | O => (st, false)
  | S remaining' =>
      let '(st', returned) := poll_once env attempt st in
      if returned then (st', true)
      else poll_loop env (S attempt) remaining' st'
  end.

(** [check_indexer_status], called with the class of the connection
    manager in the state [m]: the state of the row and of the run at the
    end, and whether the function returned ([true]) or raised, from
    [get_instance] before the loop or from the [UPDATE] after it. *)
Definition check_indexer_status (env : poller_env) (m : manager)
    (max_retries : nat) (st : poller_state) : poller_state * bool :=
  match (get_instance m).2 with
  | None => (st, false)
  | Some db =>
      let '(st', returned) := poll_loop env 0 max_retries st in
      if returned then (st', true)
      else if execute_update_ok env max_retries
           then (set_status_and_message "timeout"
                   "Indexer status check timed out" st', true)
           else (st', false)
  end.

(** A poll whose last result ends the run, if the [UPDATE] goes through. *)
Definition conclusive (p : poll) : bool :=
  match p with
  | Polled (Some last_result) =>
      bool_decide (result_status last_result = "success")
      || bool_decide (result_status last_result = "transientFailure")
      || bool_decide (result_status last_result = "warning")
      || bool_decide (result_status last_result = "failed")
  | _ => false
  end.

(** The class has made no instance, or one, of rank 0. *)
Definition one_instance_at_most (m : manager) : Prop :=
  (_instance m = None ∧ created m = 0%nat) ∨
  (_instance m = Some 0%nat ∧ created m = 1%nat).


(** * Properties *)

(** ** The primitives on examples *)

Example extract_two :
  extract_doc_numbers "See [doc1] and [doc12][doc03]. Not [doc], [docx] or [doc4"
  = ([1; 12; 3]%N, true).
Proof. reflexivity. Qed.

Example extract_none : extract_doc_numbers "no markers [doc] here" = ([], false).
Proof. reflexivity. Qed.

Example extract_restart : extract_doc_numbers "[doc2[doc5]]" = ([5%N], true).
Proof. reflexivity. Qed.

Example strip_ex : PyStr.strip ("  a b " +:+ two_newlines) = "a b".
Proof. reflexivity. Qed.

Example split_ex :
  PyStr.split_once "_" "abc123_Contract_v2.pdf" = ["abc123"; "Contract_v2.pdf"].
Proof. reflexivity. Qed.

Example lower_ex : PyStr.lower "NOT Mentioned in [Doc1]" = "not mentioned in [doc1]".
Proof. reflexivity. Qed.


(** ** Strings *)

Lemma app_cons a s t : String a s +:+ t = String a (s +:+ t).
Proof. reflexivity. Qed.

Lemma app_empty_r s : s +:+ "" = s.
Proof. induction s as [|a s IH]; [done|]. by rewrite app_cons, IH. Qed.

Lemma app_assoc_str s t u : (s +:+ t) +:+ u = s +:+ t +:+ u.
Proof. induction s as [|a s IH]; [done|]. by rewrite !app_cons, IH. Qed.

(** ** Laws of the monad *)

Lemma bind_returned {A B} (m : M A) (f : A → M B) σ σ' a :
  m σ = (σ', Returned a) → (m ≫= f) σ = f a σ'.
Proof. intros H. unfold mbind, M_mbind, M_bind. by rewrite H. Qed.

Lemma bind_raised {A B} (m : M A) (f : A → M B) σ σ' e :
  m σ = (σ', Raised e) → (m ≫= f) σ = (σ', Raised e).
Proof. intros H. unfold mbind, M_mbind, M_bind. by rewrite H. Qed.

Lemma try_returned {A} (m : M A) h σ σ' a :
  m σ = (σ', Returned a) → try_except m h σ = (σ', Returned a).
Proof. intros H. unfold try_except. by rewrite H. Qed.

Lemma try_raised {A} (m : M A) h σ σ' e :
  m σ = (σ', Raised e) → try_except m h σ = h e σ'.
Proof. intros H. unfold try_except. by rewrite H. Qed.

(** ** Frames *)

Lemma apply_writes_app ws1 ws2 m :
  apply_writes (ws1 ++ ws2) m = apply_writes ws2 (apply_writes ws1 m).
Proof. apply foldl_app. Qed.

Lemma answer_text_app vs1 vs2 :
  answer_text (vs1 ++ vs2) = answer_text vs1 +:+ answer_text vs2.
Proof.
  induction vs1 as [|v vs1 IH]; [done|].
  simpl. by rewrite IH, !app_assoc_str.
Qed.

Lemma extend_nil σ : extend σ [] [] [] = σ.
Proof. destruct σ. unfold extend; simpl. by rewrite !app_nil_r, app_empty_r. Qed.

Lemma extend_extend σ l1 w1 v1 l2 w2 v2 :
  extend (extend σ l1 w1 v1) l2 w2 v2 = extend σ (l1 ++ l2) (w1 ++ w2) (v1 ++ v2).
Proof.
  unfold extend; simpl.
  rewrite apply_writes_app, answer_text_app, app_assoc_str.
  by rewrite <- !(assoc_L (++) (log σ)), <- !(assoc_L (++) (valid_results σ)).
Qed.

Lemma frames_ret {A} (a : A) : frames (mret a) [] [] (Returned a).
Proof. intros σ. exists []. by rewrite extend_nil. Qed.

Lemma frames_raise {A} e : frames (@raise A e) [] [] (Raised e).
Proof. intros σ. exists []. by rewrite extend_nil. Qed.

Lemma frames_logging r : frames (logging r) [] [] (Returned tt).
Proof.
  intros σ. exists [r]. unfold logging, extend; simpl.
  by rewrite app_nil_r, app_empty_r.
Qed.

Lemma frames_set k v : frames (all_sources_set k v) [(k, v)] [] (Returned tt).
Proof.
  intros σ. exists []. unfold all_sources_set, extend; simpl.
  by rewrite !app_nil_r, app_empty_r.
Qed.

Lemma frames_valid d s : frames (valid_results_append d s) [] [(d, s)] (Returned tt).
Proof.
  intros σ. exists []. unfold valid_results_append, extend; simpl.
  by rewrite !app_nil_r, app_empty_r.
Qed.

Lemma frames_bind {A B} (m : M A) (f : A → M B) w1 v1 a w2 v2 o :
  frames m w1 v1 (Returned a) → frames (f a) w2 v2 o →
  frames (m ≫= f) (w1 ++ w2) (v1 ++ v2) o.
Proof.
  intros Hm Hf σ. destruct (Hm σ) as [l1 H1].
  destruct (Hf (extend σ l1 w1 v1)) as [l2 H2].
  exists (l1 ++ l2). by rewrite (bind_returned _ _ _ _ _ H1), H2, extend_extend.
Qed.

Lemma frames_bind_raised {A B} (m : M A) (f : A → M B) w v e :
  frames m w v (Raised e) → frames (m ≫= f) w v (Raised e).
Proof.
  intros Hm σ. destruct (Hm σ) as [l H]. exists l.
  by rewrite (bind_raised _ _ _ _ _ H).
Qed.

Lemma frames_try_returned {A} (m : M A) h w v a :
  frames m w v (Returned a) → frames (try_except m h) w v (Returned a).
Proof.
  intros Hm σ. destruct (Hm σ) as [l H]. exists l.
  by rewrite (try_returned _ _ _ _ _ H).
Qed.

Lemma frames_try_raised {A} (m : M A) h w1 v1 e w2 v2 o :
  frames m w1 v1 (Raised e) → frames (h e) w2 v2 o →
  frames (try_except m h) (w1 ++ w2) (v1 ++ v2) o.
Proof.
  intros Hm Hh σ. destruct (Hm σ) as [l1 H1].
  destruct (Hh (extend σ l1 w1 v1)) as [l2 H2].
  exists (l1 ++ l2). by rewrite (try_raised _ _ _ _ _ H1), H2, extend_extend.
Qed.

(** ** What the aggregation does to the state *)

Lemma frames_record_source d cs n :
  frames (record_source d cs n) (option_list (source_entry d cs n)) [] (Returned tt).
Proof.
  unfold record_source, source_entry. case_bool_decide as Hrange.
  - destruct (cs !! Z.to_nat (Z.of_N n - 1)) as [cit|] eqn:Hcit.
    + apply frames_set.
    + apply lookup_ge_None in Hcit. lia.
  - apply frames_ret.
Qed.

Lemma frames_record_sources d cs ns :
  frames (for_each (record_source d cs) ns) (omap (source_entry d cs) ns) []
         (Returned tt).
Proof.
  induction ns as [|n ns IH]; [apply frames_ret|].
  replace (omap (source_entry d cs) (n :: ns))
    with (option_list (source_entry d cs n) ++ omap (source_entry d cs) ns)
    by (simpl; by destruct (source_entry d cs n)).
  change (@nil (string * string)) with (@nil (string * string) ++ []).
  eapply frames_bind; [apply frames_record_source | apply IH].
Qed.

Lemma extract_doc_numbers_flag text :
  (extract_doc_numbers text).2 = false → (extract_doc_numbers text).1 = [].
Proof. unfold extract_doc_numbers. by destruct (findall_doc text). Qed.

Lemma frames_eq {A} (m : M A) w v w' v' o :
  frames m w v o → w = w' → v = v' → frames m w' v' o.
Proof. by intros H <- <-. Qed.

Lemma frames_choice d c text :
  content c = Some text →
  frames (process_choice d c) (choice_writes d c) (choice_valid d c) (Returned tt).
Proof.
  intros Hc. unfold process_choice, choice_writes, choice_valid, contributes,
    has_citations. rewrite Hc.
  assert (∀ b : bool, frames
    (if b && negb (is_negative text)
     then valid_results_append d text
     else logging (Warning_skipping_result d)) []
    (if b && negb (is_negative text) then [(d, text)] else []) (Returned tt))
    as Hlast.
  { intros b. destruct (b && negb (is_negative text));
      [apply frames_valid | apply frames_logging]. }
  destruct (extract_doc_numbers text) as [ns [|]] eqn:Hex;
    [destruct (citations c) as [|cit cs] eqn:Hcs|]; simpl;
    (eapply frames_eq;
     [eapply (frames_bind (mret text)); [apply frames_ret|]; rewrite Hex |..]).
  - eapply frames_bind; [apply frames_ret | apply (Hlast false)].
  - done.
  - done.
  - eapply frames_bind; [| apply (Hlast true)].
    eapply frames_bind; [apply frames_record_sources | apply frames_ret].
  - simpl. by rewrite !app_nil_r.
  - done.
  - eapply frames_bind; [apply frames_ret | apply (Hlast false)].
  - done.
  - done.
Qed.

Lemma frames_choice_raises d c :
  content c = None → frames (process_choice d c) [] [] (Raised TypeError).
Proof.
  intros Hc. unfold process_choice. rewrite Hc.
  apply frames_bind_raised, frames_raise.
Qed.

Lemma frames_choices d cs :
  ∃ o, frames (for_each (process_choice d) cs)
              (reached cs ≫= choice_writes d) (reached cs ≫= choice_valid d) o.
Proof.
  induction cs as [|c cs [o IH]]; [eexists; apply frames_ret|].
  simpl. destruct (content c) as [text|] eqn:Hc.
  - exists o. eapply frames_bind; [by eapply frames_choice | apply IH].
  - eexists. by apply frames_bind_raised, frames_choice_raises.
Qed.

Lemma frames_result r :
  frames (process_result r) (result_writes r) (result_valid r) (Returned tt).
Proof.
  destruct r as [d [[cs|]]];
    unfold process_result, result_writes, result_valid, result_choices; simpl.
  - destruct (frames_choices d cs) as [o Hcs].
    assert (frames (logging (Info_processing_result d) ;;
                    for_each (process_choice d) cs)
              (reached cs ≫= choice_writes d) (reached cs ≫= choice_valid d) o)
      as Hbody.
    { change (reached cs ≫= choice_writes d)
        with ([] ++ reached cs ≫= choice_writes d).
      change (reached cs ≫= choice_valid d)
        with ([] ++ reached cs ≫= choice_valid d).
      eapply frames_bind; [apply frames_logging | apply Hcs]. }
    assert (frames (mret cs ≫= λ choices, logging (Info_processing_result d) ;;
                    for_each (process_choice d) choices)
              (reached cs ≫= choice_writes d) (reached cs ≫= choice_valid d) o)
      as Hbody'.
    { change (reached cs ≫= choice_writes d)
        with ([] ++ reached cs ≫= choice_writes d).
      change (reached cs ≫= choice_valid d)
        with ([] ++ reached cs ≫= choice_valid d).
      eapply frames_bind; [apply frames_ret | apply Hbody]. }
    destruct o as [[]|e].
    + by apply frames_try_returned.
    + rewrite <- (app_nil_r (reached cs ≫= choice_writes d)).
      rewrite <- (app_nil_r (reached cs ≫= choice_valid d)).
      eapply frames_try_raised; [apply Hbody' | apply frames_logging].
  - change (@nil (string * string)) with (@nil (string * string) ++ []).
    eapply frames_try_raised; [| apply frames_logging].
    apply frames_bind_raised, frames_raise.
Qed.

Lemma frames_results rs :
  frames (for_each process_result rs) (rs ≫= result_writes) (rs ≫= result_valid)
         (Returned tt).
Proof.
  induction rs as [|r rs IH]; [apply frames_ret|].
  simpl. eapply frames_bind; [apply frames_result | apply IH].
Qed.

(** The aggregation never raises; its answer and its source map are those
    of the summaries. *)
Lemma aggregate_frames rs σ :
  all_sources σ = ∅ → valid_results σ = [] → combined_answer σ = "" →
  ∃ lg, aggregate rs σ =
    (extend σ lg (rs ≫= result_writes) (rs ≫= result_valid),
     Returned (joined_answer (rs ≫= result_valid),
               apply_writes (rs ≫= result_writes) ∅)).
Proof.
  intros Hs Hv Hc. destruct (frames_results rs σ) as [lg Hrs]. exists lg.
  unfold aggregate. rewrite (bind_returned _ _ _ _ _ Hrs).
  unfold mbind, M_mbind, M_bind, get_state, mret, M_mret, M_ret; simpl.
  rewrite Hs, Hv, Hc; simpl. unfold joined_answer.
  by destruct (rs ≫= result_valid).
Qed.

Lemma run_aggregate_frames rs :
  ∃ lg, run_aggregate rs =
    ({| log := lg; all_results := rs;
        all_sources := apply_writes (rs ≫= result_writes) ∅;
        valid_results := rs ≫= result_valid;
        combined_answer := answer_text (rs ≫= result_valid) |},
     Returned (joined_answer (rs ≫= result_valid),
               apply_writes (rs ≫= result_writes) ∅)).
Proof.
  unfold run_aggregate.
  edestruct (aggregate_frames rs) as [lg ->]; [done..|]. by exists lg.
Qed.

(** ** Assignments to the source map *)

Lemma lookup_apply_writes ws m k :
  apply_writes ws m !! k = from_option Some (m !! k) (last_write k ws).
Proof.
  revert m. induction ws as [|[k' v'] ws IH]; intros m; [done|].
  simpl. rewrite IH. destruct (last_write k ws); [done|]. simpl.
  case_decide; subst; by rewrite ?lookup_insert_eq, ?lookup_insert_ne.
Qed.

Lemma last_write_elem k v ws : last_write k ws = Some v → (k, v) ∈ ws.
Proof.
  induction ws as [|[k' v'] ws IH]; [done|]. simpl.
  destruct (last_write k ws); [intros [= <-]; right; by apply IH|].
  case_decide; [intros [= <-]; subst; left | done].
Qed.

Lemma last_write_None k ws : last_write k ws = None ↔ ∀ v, (k, v) ∉ ws.
Proof.
  induction ws as [|[k' v'] ws IH]; simpl.
  - split; [intros _ v Hv; by apply elem_of_nil in Hv | done].
  - destruct (last_write k ws) as [v|] eqn:Hl.
    + split; [done|]. intros H. destruct (H v). right. by apply last_write_elem.
    + case_decide as Hk; simpl in Hk.
      * split; [done|]. intros H. destruct (H v'). subst. left.
      * split; [|done]. intros _ v [[= ? ?]|Hv]%elem_of_cons; [done|].
        by apply (proj1 IH eq_refl v).
Qed.

Lemma lookup_apply_writes_absent ws m k :
  (∀ v, (k, v) ∉ ws) → apply_writes ws m !! k = m !! k.
Proof.
  intros H%last_write_None. by rewrite lookup_apply_writes, H.
Qed.

Lemma lookup_apply_writes_Some ws m k v :
  apply_writes ws m !! k = Some v → (k, v) ∈ ws ∨ m !! k = Some v.
Proof.
  rewrite lookup_apply_writes. destruct (last_write k ws) as [v'|] eqn:Hl; simpl.
  - intros [= <-]. left. by apply last_write_elem.
  - by right.
Qed.

Lemma lookup_apply_writes_const ws m k v :
  (k, v) ∈ ws → (∀ v', (k, v') ∈ ws → v' = v) →
  apply_writes ws m !! k = Some v.
Proof.
  intros Hin Hconst. rewrite lookup_apply_writes.
  destruct (last_write k ws) as [v'|] eqn:Hl; simpl.
  - f_equal. by apply Hconst, last_write_elem.
  - by destruct (proj1 (last_write_None k ws) Hl v).
Qed.

Lemma apply_writes_commute ws1 ws2 m :
  (∀ k v1 v2, (k, v1) ∈ ws1 → (k, v2) ∈ ws2 → False) →
  apply_writes ws2 (apply_writes ws1 m) = apply_writes ws1 (apply_writes ws2 m).
Proof.
  intros Hdisj. apply map_eq; intros k. rewrite !lookup_apply_writes.
  destruct (last_write k ws1) as [v1|] eqn:H1,
           (last_write k ws2) as [v2|] eqn:H2; simpl; try done.
  destruct (Hdisj k v1 v2); by apply last_write_elem.
Qed.

(** ** Source keys *)

Lemma contains_underscore_cons a s :
  PyStr.contains "_" (String a s) = bool_decide (a = "_"%char) || PyStr.contains "_" s.
Proof.
  simpl. f_equal. rewrite andb_true_r.
  apply bool_decide_ext. split; congruence.
Qed.

Lemma contains_underscore_app s t :
  PyStr.contains "_" (s +:+ t) = PyStr.contains "_" s || PyStr.contains "_" t.
Proof.
  induction s as [|a s IH].
  - by destruct t.
  - by rewrite app_cons, !contains_underscore_cons, IH, orb_assoc.
Qed.

Lemma pretty_N_char_no_underscore x : pretty_N_char x ≠ "_"%char.
Proof. unfold pretty_N_char. by repeat case_match. Qed.

Lemma pretty_N_go_no_underscore x s :
  PyStr.contains "_" s = false → PyStr.contains "_" (pretty_N_go x s) = false.
Proof.
  revert s. induction (N.lt_wf_0 x) as [x _ IH]; intros s Hs.
  destruct (decide (x = 0)%N) as [->|Hx]; [by rewrite pretty_N_go_0|].
  rewrite pretty_N_go_step by lia. apply IH.
  - apply N.div_lt; lia.
  - rewrite contains_underscore_cons, Hs, orb_false_r.
    apply bool_decide_eq_false, pretty_N_char_no_underscore.
Qed.

Lemma pretty_N_no_underscore (n : N) : PyStr.contains "_" (pretty n) = false.
Proof.
  unfold pretty, pretty_N. case_decide; [done|].
  by apply pretty_N_go_no_underscore.
Qed.

Lemma split_at_last_underscore a b s t :
  PyStr.contains "_" s = false → PyStr.contains "_" t = false →
  a +:+ "_" +:+ s = b +:+ "_" +:+ t → a = b ∧ s = t.
Proof.
  intros Hs Ht. revert b. induction a as [|x a IH]; intros [|y b] Heq.
  - by injection Heq.
  - injection Heq as <- Heq. change (s = b +:+ "_" +:+ t) in Heq. subst s.
    rewrite contains_underscore_app in Hs. by rewrite orb_true_r in Hs.
  - injection Heq as -> Heq. change (a +:+ "_" +:+ s = t) in Heq. subst t.
    rewrite contains_underscore_app in Ht. by rewrite orb_true_r in Ht.
  - change (String x (a +:+ "_" +:+ s) = String y (b +:+ "_" +:+ t)) in Heq.
    injection Heq as -> Heq. by destruct (IH _ Heq) as [-> ->].
Qed.

Lemma source_key_inj d1 n1 d2 n2 :
  source_key d1 n1 = source_key d2 n2 → d1 = d2 ∧ n1 = n2.
Proof.
  unfold source_key. intros [-> Hn]%split_at_last_underscore;
    [| apply pretty_N_no_underscore..].
  split; [done|]. by apply (inj pretty).
Qed.

(** ** Where the entries of the source map come from *)

Lemma source_entry_Some d cs n kv :
  source_entry d cs n = Some kv ↔
  ∃ cit, (1 ≤ n)%N ∧ cs !! (N.to_nat n - 1)%nat = Some cit ∧
         kv = (source_key d n, clean_file_title (title cit)).
Proof.
  unfold source_entry. replace (Z.to_nat (Z.of_N n - 1)) with (N.to_nat n - 1)%nat by lia.
  case_bool_decide as Hrange; split.
  - destruct (cs !! _) as [cit|] eqn:Hcit; [|done]. intros [= <-].
    exists cit. split; [lia|done].
  - intros (cit & Hn & Hcit & ->). by rewrite Hcit.
  - done.
  - intros (cit & Hn & Hcit & ->). apply lookup_lt_Some in Hcit. lia.
Qed.

Lemma choice_writes_elem d c kv :
  kv ∈ choice_writes d c ↔
  ∃ text n cit,
    content c = Some text ∧ n ∈ (extract_doc_numbers text).1 ∧ (1 ≤ n)%N ∧
    citations c !! (N.to_nat n - 1)%nat = Some cit ∧
    kv = (source_key d n, clean_file_title (title cit)).
Proof.
  unfold choice_writes, has_citations. split.
  - destruct (content c) as [text|]; [|by intros ?%elem_of_nil].
    destruct (_ && _); [|by intros ?%elem_of_nil].
    intros (n & Hn & (cit & ? & ? & ->)%source_entry_Some)%list_elem_of_omap.
    by exists text, n, cit.
  - intros (text & n & cit & -> & Hn & H1 & Hcit & ->).
    destruct (extract_doc_numbers text) as [ns [|]] eqn:Hex; simpl in *.
    + case_bool_decide as Hcs; simpl; [by rewrite Hcs in Hcit|].
      apply list_elem_of_omap. exists n. split; [done|].
      apply source_entry_Some. by exists cit.
    + pose proof (extract_doc_numbers_flag text) as Hflag.
      rewrite Hex in Hflag. simpl in Hflag.
      rewrite (Hflag eq_refl) in Hn. by apply elem_of_nil in Hn.
Qed.

Lemma result_writes_elem r kv :
  kv ∈ result_writes r ↔
  ∃ c text n cit,
    c ∈ result_choices r ∧
    content c = Some text ∧ n ∈ (extract_doc_numbers text).1 ∧ (1 ≤ n)%N ∧
    citations c !! (N.to_nat n - 1)%nat = Some cit ∧
    kv = (source_key r.1 n, clean_file_title (title cit)).
Proof.
  unfold result_writes. rewrite list_elem_of_bind. split.
  - intros (c & (text & n & cit & ?)%choice_writes_elem & Hc).
    by exists c, text, n, cit.
  - intros (c & text & n & cit & Hc & ?). exists c. split; [|done].
    apply choice_writes_elem. by exists text, n, cit.
Qed.

Lemma result_writes_key r k v :
  (k, v) ∈ result_writes r → ∃ n, k = source_key r.1 n.
Proof.
  intros (c & text & n & cit & _ & _ & _ & _ & _ & [= -> _])%result_writes_elem.
  by exists n.
Qed.

Lemma reached_elem c cs : c ∈ reached cs → c ∈ cs.
Proof.
  induction cs as [|c' cs IH]; [done|]. simpl.
  destruct (content c'); [|by intros ?%elem_of_nil].
  intros [->|?]%elem_of_cons; [left | right; auto].
Qed.

(** ** Order of arrival *)

Lemma result_writes_disjoint r1 r2 k v1 v2 :
  r1.1 ≠ r2.1 → (k, v1) ∈ result_writes r1 → (k, v2) ∈ result_writes r2 → False.
Proof.
  intros Hne [n1 ->]%result_writes_key [n2 Hk]%result_writes_key.
  by apply source_key_inj in Hk as [? _].
Qed.

Lemma writes_permutation rs rs' :
  rs ≡ₚ rs' → NoDup rs.*1 →
  ∀ m, apply_writes (rs ≫= result_writes) m = apply_writes (rs' ≫= result_writes) m.
Proof.
  induction 1 as [|r l l' _ IH|r1 r2 l|l l' l'' Hp IH Hp' IH']; intros Hnd m.
  - done.
  - simpl. rewrite !apply_writes_app. apply IH. by apply NoDup_cons_1_2 in Hnd.
  - simpl. rewrite !apply_writes_app. f_equal.
    apply apply_writes_commute. intros k v1 v2.
    apply result_writes_disjoint. apply NoDup_cons_1_1 in Hnd.
    intros Heq. apply Hnd. simpl. rewrite Heq. left.
  - rewrite IH by done. apply IH'. by rewrite <- Hp.
Qed.

(** ** Markers are found wherever they stand *)

Lemma digits_prefix_run ds post :
  all_digits ds = true → PyStr.digits_prefix (ds +:+ "]" +:+ post) = ds.
Proof.
  induction ds as [|c ds IH]; [done|]. rewrite app_cons. simpl.
  intros [[d Hd]%bool_decide_eq_true Hds]%andb_true_iff.
  by rewrite Hd, IH.
Qed.

Lemma drop_app s t : PyStr.drop (String.length s) (s +:+ t) = t.
Proof. induction s as [|c s IH]; [done|]. by rewrite app_cons. Qed.

Lemma match_marker_here ds post :
  all_digits ds = true → ds ≠ "" →
  match_marker ("[doc" +:+ ds +:+ "]" +:+ post)
  = Some (ds, (4 + String.length ds + 1)%nat).
Proof.
  intros Hds Hne. unfold match_marker.
  change ("[doc" +:+ ds +:+ "]" +:+ post)
    with (String "[" (String "d" (String "o" (String "c" (ds +:+ "]" +:+ post))))).
  cbn [PyStr.startswith PyStr.drop Nat.add]. rewrite !bool_decide_eq_true_2 by done.
  cbn [andb]. rewrite digits_prefix_run by done.
  destruct ds as [|a ds']; [done|]. by rewrite drop_app.
Qed.

Lemma digits_prefix_before_bracket p rest x :
  PyStr.drop (String.length (PyStr.digits_prefix (p +:+ "[" +:+ rest)))
             (p +:+ "[" +:+ rest) = String "]" x →
  (String.length (PyStr.digits_prefix (p +:+ "[" +:+ rest)) < String.length p)%nat.
Proof.
  induction p as [|c p IH]; [done|]. rewrite app_cons. simpl.
  destruct (PyStr.digit_value c); simpl.
  - intros H%IH. lia.
  - lia.
Qed.

Lemma match_marker_bounded c p rest g len :
  match_marker (String c p +:+ "[" +:+ rest) = Some (g, len) →
  (len ≤ S (String.length p))%nat.
Proof.
  unfold match_marker. rewrite app_cons.
  destruct p as [|c1 [|c2 [|c3 p]]]; try by (simpl; repeat case_bool_decide).
  change (String c1 (String c2 (String c3 p)) +:+ "[" +:+ rest)
    with (String c1 (String c2 (String c3 (p +:+ "[" +:+ rest)))).
  destruct (PyStr.startswith _ _); [|done].
  cbn [PyStr.drop Nat.add].
  destruct (PyStr.digits_prefix (p +:+ "[" +:+ rest)) as [|d ds] eqn:Hds; [done|].
  destruct (PyStr.drop _ _) as [|b x] eqn:Hdrop; [done|].
  destruct (decide (b = "]"%char)) as [->|Hb].
  - intros [= <- <-]. rewrite <- Hds in Hdrop.
    apply digits_prefix_before_bracket in Hdrop. rewrite Hds in Hdrop.
    simpl in *. lia.
  - intros H. exfalso. revert H.
    destruct b as [[] [] [] [] [] [] [] []]; done.
Qed.

Lemma findall_from_finds pre ds post skip :
  all_digits ds = true → ds ≠ "" → (skip ≤ String.length pre)%nat →
  ds ∈ findall_from skip (pre +:+ "[doc" +:+ ds +:+ "]" +:+ post).
Proof.
  intros Hds Hne. revert skip. induction pre as [|c pre IH]; intros skip Hskip.
  - assert (skip = O) as -> by (simpl in Hskip; lia).
    pose proof (match_marker_here ds post Hds Hne) as Hm.
    change ("" +:+ "[doc" +:+ ds +:+ "]" +:+ post)
      with ("[doc" +:+ ds +:+ "]" +:+ post).
    remember ("[doc" +:+ ds +:+ "]" +:+ post) as text eqn:Htext.
    destruct text as [|c text]; [done|]. simpl. rewrite Hm. left.
  - rewrite app_cons. simpl. destruct skip as [|k].
    + destruct (match_marker _) as [[g len]|] eqn:Hm.
      * right. apply IH.
        apply (match_marker_bounded c pre ("doc" +:+ ds +:+ "]" +:+ post)) in Hm.
        lia.
      * apply IH. lia.
    + apply IH. simpl in Hskip. lia.
Qed.

Lemma marker_extracted pre ds post :
  all_digits ds = true → ds ≠ "" →
  PyStr.int ds ∈ (extract_doc_numbers (pre +:+ "[doc" +:+ ds +:+ "]" +:+ post)).1.
Proof.
  intros Hds Hne.
  assert (ds ∈ findall_from O (pre +:+ "[doc" +:+ ds +:+ "]" +:+ post)) as Hin
    by (apply findall_from_finds; [done..|lia]).
  unfold extract_doc_numbers, findall_doc.
  destruct (findall_from _ _) as [|g gs] eqn:Hall.
  - by apply elem_of_nil in Hin.
  - cbn [fst]. by apply (list_elem_of_fmap_2 PyStr.int).
Qed.

(** ** Resolution and fan-out *)

Lemma advance_nil σ : advance σ [] [] = σ.
Proof. destruct σ. unfold advance; simpl. by rewrite !app_nil_r. Qed.

Lemma advance_advance σ l1 r1 l2 r2 :
  advance (advance σ l1 r1) l2 r2 = advance σ (l1 ++ l2) (r1 ++ r2).
Proof. unfold advance; simpl. by rewrite !(assoc_L (++)). Qed.

Lemma logging_advance r σ : logging r σ = (advance σ [r] [], Returned tt).
Proof. unfold logging, advance; simpl. by rewrite app_nil_r. Qed.

Lemma search_single_index_runs env q n d σ :
  search_single_index env q n d σ =
  (advance σ (Info_searching_index (index_name_of d) ::
              match chat_completions_create env n q (index_name_of d) with
              | Some _ => []
              | None => [Error_searching_index d]
              end) [],
   Returned (d, chat_completions_create env n q (index_name_of d))).
Proof.
  unfold search_single_index, try_except.
  rewrite (bind_returned _ _ _ _ _ (logging_advance _ σ)).
  destruct (chat_completions_create env n q (index_name_of d)) as [c|].
  - done.
  - unfold raise. rewrite (bind_returned _ _ _ _ _ (logging_advance _ _)).
    unfold mret, M_mret, M_ret. by rewrite advance_advance.
Qed.

Lemma collect_runs env q ids n σ :
  ∃ lg, collect env q ids n σ =
        (advance σ lg (option_list (collected env q ids n)), Returned tt).
Proof.
  unfold collect, collected. destruct (ids !! n) as [d|]; simpl.
  - unfold try_except.
    rewrite (bind_returned _ _ _ _ _ (search_single_index_runs env q n d σ)).
    simpl. destruct (chat_completions_create env n q (index_name_of d)) as [c|]; simpl.
    + eexists. unfold all_results_append, advance; simpl.
      by rewrite app_nil_r.
    + eexists. done.
  - exists []. by rewrite advance_nil.
Qed.

Lemma fan_out_runs env q ids arrival σ :
  ∃ lg, fan_out env q ids arrival σ =
        (advance σ lg (omap (collected env q ids) arrival), Returned tt).
Proof.
  unfold fan_out. revert σ. induction arrival as [|n arrival IH]; intros σ.
  - exists []. by rewrite advance_nil.
  - destruct (collect_runs env q ids n σ) as [l1 H1].
    destruct (IH (advance σ l1 (option_list (collected env q ids n)))) as [l2 H2].
    exists (l1 ++ l2). simpl. rewrite (bind_returned _ _ _ _ _ H1), H2.
    rewrite advance_advance. by destruct (collected env q ids n).
Qed.

Lemma select_indexed_runs env c rows σ :
  ipx_documents env = Some rows →
  select_indexed env c σ = (σ, Returned (filter (indexed_for c) rows)).
Proof. unfold select_indexed. by intros ->. Qed.

Lemma resolve_explicit env l compound_id σ :
  l ≠ [] → resolve_doc_ids env (Some l) compound_id σ = (σ, Returned (Some l)).
Proof. by destruct l. Qed.

Lemma resolve_from_table env doc_ids compound_id c rows σ :
  none_or_empty doc_ids = true → truthy compound_id = Some c →
  ipx_documents env = Some rows →
  resolve_doc_ids env doc_ids compound_id σ =
  (advance σ [Info_found_indexed
                (length (filter (indexed_for c) rows)) c] [],
   Returned (Some ((λ r, pretty (row_id r)) <$> filter (indexed_for c) rows))).
Proof.
  intros Hd Hc Hrows. unfold resolve_doc_ids. rewrite Hd, Hc.
  rewrite (bind_returned _ _ _ _ _ (select_indexed_runs env c rows σ Hrows)).
  rewrite length_fmap.
  by rewrite (bind_returned _ _ _ _ _ (logging_advance _ σ)).
Qed.

Lemma resolve_nothing env doc_ids compound_id σ :
  none_or_empty doc_ids = true → truthy compound_id = None →
  resolve_doc_ids env doc_ids compound_id σ =
  (advance σ [Warning_no_ids_provided] [], Returned None).
Proof.
  intros Hd Hc. unfold resolve_doc_ids. rewrite Hd, Hc.
  by rewrite (bind_returned _ _ _ _ _ (logging_advance _ σ)).
Qed.

(** Resolution touches nothing but the log. *)
Lemma resolve_doc_ids_state env doc_ids compound_id σ :
  ∃ lg, (resolve_doc_ids env doc_ids compound_id σ).1 = advance σ lg [].
Proof.
  destruct (none_or_empty doc_ids) eqn:Hd.
  - destruct (truthy compound_id) as [c|] eqn:Hc.
    + destruct (ipx_documents env) as [rows|] eqn:Hrows.
      * eexists. by erewrite resolve_from_table.
      * exists [Error_select_query]. unfold resolve_doc_ids, select_indexed.
        rewrite Hd, Hc, Hrows.
        erewrite bind_raised; [done|].
        by rewrite (bind_returned _ _ _ _ _ (logging_advance _ σ)).
    + eexists. by erewrite resolve_nothing.
  - exists []. unfold resolve_doc_ids. rewrite Hd. by rewrite advance_nil.
Qed.

(** With a non-empty list of identifiers the function logs the fan-out,
    collects, and aggregates what was collected unless nothing was. *)
Lemma search_resolved_runs env arrival q ids σ :
  ids ≠ [] →
  ∃ lg, search_resolved env arrival q ids σ =
    let σ' := advance σ (Info_searching_across (length ids) :: lg)
                      (omap (collected env q ids) arrival) in
    match all_results σ' with
    | [] => (σ', Returned (no_results_answer, ∅))
    | _ :: _ => aggregate (all_results σ') σ'
    end.
Proof.
  intros Hids. destruct ids as [|d ids]; [done|].
  destruct (fan_out_runs env q (d :: ids) arrival
              (advance σ [Info_searching_across (length (d :: ids))] []))
    as [lg Hfan].
  exists lg. unfold search_resolved.
  rewrite (bind_returned _ _ _ _ _ (logging_advance _ σ)).
  rewrite (bind_returned _ _ _ _ _ Hfan). rewrite advance_advance. simpl.
  unfold mbind, M_mbind, M_bind, get_state.
  set (σ' := advance σ _ _).
  change (all_results σ') with (all_results σ ++ omap (collected env q (d :: ids)) arrival).
  by destruct (all_results σ ++ _).
Qed.

(** The function hands to the aggregation what the fan-out collected, and
    returns what the aggregation returns. *)
Lemma run_search_aggregates env arrival q doc_ids compound_id σ ids :
  resolve_doc_ids env doc_ids compound_id initial_state = (σ, Returned (Some ids)) →
  ids ≠ [] →
  omap (collected env q ids) arrival ≠ [] →
  (run_search env arrival q doc_ids compound_id).2
  = (run_aggregate (omap (collected env q ids) arrival)).2.
Proof.
  intros Hres Hids Hsome. unfold run_search, search_documents.
  rewrite (bind_returned _ _ _ _ _ Hres).
  destruct (search_resolved_runs env arrival q ids σ Hids) as [lg ->].
  destruct (resolve_doc_ids_state env doc_ids compound_id initial_state) as [lg0 Hσ].
  rewrite Hres in Hσ. simpl in Hσ. subst σ.
  destruct (omap (collected env q ids) arrival) as [|r rs] eqn:Hrs; [done|].
  cbv zeta. remember (advance (advance initial_state lg0 []) _ (r :: rs)) as σ' eqn:Hσ'.
  assert (all_results σ' = r :: rs) as -> by (by subst σ').
  destruct (aggregate_frames (r :: rs) σ') as [lg1 ->]; [by subst σ'..|].
  by destruct (run_aggregate_frames (r :: rs)) as [lg2 ->].
Qed.

(** A fan-out leaves its record in the log. *)
Lemma fan_out_is_logged env arrival q doc_ids compound_id σ ids :
  resolve_doc_ids env doc_ids compound_id initial_state = (σ, Returned (Some ids)) →
  ids ≠ [] →
  Info_searching_across (length ids)
  ∈ log (run_search env arrival q doc_ids compound_id).1.
Proof.
  intros Hres Hids. unfold run_search, search_documents.
  rewrite (bind_returned _ _ _ _ _ Hres).
  destruct (search_resolved_runs env arrival q ids σ Hids) as [lg ->].
  cbv zeta. remember (advance σ _ _) as σ' eqn:Hσ'.
  assert (Info_searching_across (length ids) ∈ log σ') as Hin.
  { subst σ'. simpl. apply elem_of_app. right. left. }
  destruct (all_results σ') as [|r rs]; [done|].
  destruct (frames_results (r :: rs) σ') as [lg1 Hagg].
  unfold aggregate. rewrite (bind_returned _ _ _ _ _ Hagg).
  simpl. apply elem_of_app. by left.
Qed.

(** ** Titles *)

Lemma split_once_underscore t :
  PyStr.contains "_" t = true →
  ∃ pre post, PyStr.split_once "_" t = [pre; post] ∧
              t = pre +:+ "_" +:+ post ∧ PyStr.contains "_" pre = false.
Proof.
  induction t as [|a t IH]; [done|].
  rewrite contains_underscore_cons. simpl. case_bool_decide as Ha; simpl.
  - intros _. exists "", t. by subst.
  - intros (pre & post & -> & -> & Hpre)%IH. exists (String a pre), post.
    split_and!; [done..|].
    by rewrite contains_underscore_cons, bool_decide_eq_false_2, Hpre.
Qed.

Lemma clean_file_title_underscore t :
  PyStr.contains "_" t = true →
  ∃ pre, PyStr.contains "_" pre = false ∧ t = pre +:+ "_" +:+ clean_file_title t.
Proof.
  intros Ht. destruct (split_once_underscore t Ht) as (pre & post & Hsplit & Heq & Hpre).
  exists pre. split; [done|]. unfold clean_file_title.
  rewrite Ht, Hsplit. destruct t; [done|]. by rewrite bool_decide_eq_false_2.
Qed.

Lemma clean_file_title_plain t :
  PyStr.contains "_" t = false → clean_file_title t = t.
Proof. intros Ht. unfold clean_file_title. by rewrite Ht, andb_false_r. Qed.

(** ** Contribution *)

Lemma result_valid_elem r d text :
  (d, text) ∈ result_valid r →
  d = r.1 ∧ ∃ c, c ∈ result_choices r ∧ content c = Some text ∧
                 contributes text (citations c) = true.
Proof.
  unfold result_valid. intros (c & Hin & Hc)%list_elem_of_bind.
  unfold choice_valid in Hin. destruct (content c) as [text'|] eqn:Hcontent;
    [|by apply elem_of_nil in Hin].
  destruct (contributes text' (citations c)) eqn:Hcontr;
    [|by apply elem_of_nil in Hin].
  apply list_elem_of_singleton in Hin as [= -> ->]. split; [done|].
  by exists c.
Qed.

(** A result whose text carries a negative phrase is never appended to the
    answer. *)
Lemma negative_results_do_not_contribute rs d text :
  (d, text) ∈ valid_results (run_aggregate rs).1 → is_negative text = false.
Proof.
  destruct (run_aggregate_frames rs) as [lg ->]. simpl.
  intros (r & (_ & c & _ & _ & Hc)%result_valid_elem & _)%list_elem_of_bind.
  unfold contributes in Hc. apply andb_true_iff in Hc as [_ Hc].
  by apply negb_true_iff in Hc.
Qed.

(** Without a contributing result the answer is the fallback. *)
Lemma no_contribution_gives_fallback rs :
  valid_results (run_aggregate rs).1 = [] →
  ∃ sources, (run_aggregate rs).2 = Returned (fallback_answer, sources).
Proof.
  destruct (run_aggregate_frames rs) as [lg ->]. simpl. intros ->. by eexists.
Qed.

Lemma omap_collected_failures env q ids arrival :
  (∀ n d, ids !! n = Some d →
          chat_completions_create env n q (index_name_of d) = None) →
  omap (collected env q ids) arrival = [].
Proof.
  intros Hfail. induction arrival as [|n arrival IH]; [done|].
  assert (collected env q ids n = None) as Hn.
  { unfold collected. destruct (ids !! n) as [d|] eqn:Hd; [|done].
    simpl. by rewrite (Hfail n d Hd). }
  simpl. by rewrite Hn.
Qed.

(** ** Trimming and occurrence *)

Lemma startswith_app p s : PyStr.startswith p (p +:+ s) = true.
Proof.
  induction p as [|a p IH]; [by destruct s|].
  rewrite app_cons. simpl. by rewrite bool_decide_eq_true_2, IH.
Qed.

Lemma contains_empty s : PyStr.contains "" s = true.
Proof. by destruct s. Qed.

Lemma contains_middle x core y : PyStr.contains core (x +:+ core +:+ y) = true.
Proof.
  induction x as [|a x IH].
  - change ("" +:+ core +:+ y) with (core +:+ y).
    destruct (core +:+ y) eqn:Heq; simpl; rewrite <- Heq, startswith_app; done.
  - rewrite app_cons. simpl. by rewrite IH, orb_true_r.
Qed.

Lemma lstrip_suffix s : ∃ ws, s = ws +:+ PyStr.lstrip s.
Proof.
  induction s as [|a s [ws IH]]; [by exists ""|]. simpl.
  destruct (PyStr.isspace a).
  - exists (String a ws). by rewrite app_cons, <- IH.
  - by exists "".
Qed.

Lemma lstrip_head s a t : PyStr.lstrip s = String a t → PyStr.isspace a = false.
Proof.
  induction s as [|b s IH]; [done|]. simpl.
  destruct (PyStr.isspace b) eqn:Hb; [done|]. by intros [= <- _].
Qed.

Lemma lstrip_keeps x a core y :
  PyStr.isspace a = false →
  ∃ x', PyStr.lstrip (x +:+ String a core +:+ y) = x' +:+ String a core +:+ y.
Proof.
  intros Ha. induction x as [|b x [x' IH]].
  - exists "". change ("" +:+ String a core +:+ y) with (String a (core +:+ y)).
    simpl. by rewrite Ha.
  - rewrite app_cons. simpl. destruct (PyStr.isspace b).
    + by exists x'.
    + by exists (String b x).
Qed.

Lemma rstrip_cons_nonspace a t :
  PyStr.isspace a = false → PyStr.rstrip (String a t) = String a (PyStr.rstrip t).
Proof. intros Ha. simpl. destruct (PyStr.rstrip t); by rewrite ?Ha. Qed.

Lemma rstrip_cons_nonempty a t :
  PyStr.rstrip t ≠ "" → PyStr.rstrip (String a t) = String a (PyStr.rstrip t).
Proof. intros Ht. simpl. by destruct (PyStr.rstrip t). Qed.

Lemma rstrip_prefix s : ∃ ws, s = PyStr.rstrip s +:+ ws.
Proof.
  induction s as [|a s [ws IH]]; [by exists ""|]. simpl.
  destruct (PyStr.rstrip s) as [|b t] eqn:Hs.
  - destruct (PyStr.isspace a).
    + exists (String a s). done.
    + exists s. done.
  - exists ws. by rewrite app_cons, <- IH.
Qed.

Lemma rstrip_idemp s : PyStr.rstrip (PyStr.rstrip s) = PyStr.rstrip s.
Proof.
  induction s as [|a s IH]; [done|]. simpl.
  destruct (PyStr.rstrip s) as [|b t] eqn:Hs.
  - destruct (PyStr.isspace a) eqn:Ha; [done|]. simpl. by rewrite Ha.
  - rewrite rstrip_cons_nonempty; by rewrite IH.
Qed.

Lemma rstrip_keeps_core core y :
  PyStr.rstrip core = core → core ≠ "" →
  ∃ y', PyStr.rstrip (core +:+ y) = core +:+ y'.
Proof.
  induction core as [|a t IH]; [done|]. intros Hfix _.
  destruct t as [|b t].
  - simpl in Hfix. destruct (PyStr.isspace a) eqn:Ha; [done|].
    exists (PyStr.rstrip y). change (String a "" +:+ y) with (String a y).
    by rewrite rstrip_cons_nonspace.
  - assert (PyStr.rstrip (String b t) = String b t) as Ht.
    { change (match PyStr.rstrip (String b t) with
              | "" => if PyStr.isspace a then "" else String a ""
              | String c u => String a (String c u)
              end = String a (String b t)) in Hfix.
      destruct (PyStr.rstrip (String b t)) as [|c u].
      - destruct (PyStr.isspace a); discriminate Hfix.
      - congruence. }
    destruct (IH Ht) as [y' Hy']; [done|]. exists y'.
    rewrite app_cons, rstrip_cons_nonempty; rewrite Hy'; done.
Qed.

Lemma rstrip_keeps x z : PyStr.rstrip z ≠ "" → PyStr.rstrip (x +:+ z) = x +:+ PyStr.rstrip z.
Proof.
  intros Hz. induction x as [|a x IH]; [done|].
  rewrite app_cons, rstrip_cons_nonempty; rewrite IH; [done|].
  by destruct x.
Qed.

(** A trimmed text occurs in the trimmed whole. *)
Lemma strip_occurs x text y :
  PyStr.contains (PyStr.strip text) (PyStr.strip (x +:+ text +:+ y)) = true.
Proof.
  destruct (PyStr.strip text) as [|a core] eqn:Hcore; [apply contains_empty|].
  assert (PyStr.isspace a = false) as Ha.
  { unfold PyStr.strip in Hcore.
    destruct (PyStr.lstrip text) as [|b t] eqn:Hl; [done|].
    pose proof (lstrip_head _ _ _ Hl) as Hb.
    rewrite rstrip_cons_nonspace in Hcore by done. by injection Hcore as <- _. }
  assert (PyStr.rstrip (String a core) = String a core) as Hfix
    by (rewrite <- Hcore; apply rstrip_idemp).
  destruct (lstrip_suffix text) as [w1 H1].
  destruct (rstrip_prefix (PyStr.lstrip text)) as [w2 H2].
  fold (PyStr.strip text) in H2. rewrite Hcore in H2.
  assert (x +:+ text +:+ y = (x +:+ w1) +:+ String a core +:+ (w2 +:+ y)) as ->.
  { rewrite H1 at 1. rewrite H2. by rewrite !app_assoc_str. }
  unfold PyStr.strip.
  destruct (lstrip_keeps (x +:+ w1) a core (w2 +:+ y) Ha) as [x' ->].
  destruct (rstrip_keeps_core (String a core) (w2 +:+ y) Hfix) as [y' Hy']; [done|].
  rewrite rstrip_keeps; rewrite Hy'; [|done]. apply contains_middle.
Qed.

Lemma answer_text_split vs d text :
  (d, text) ∈ vs → ∃ x y, answer_text vs = x +:+ text +:+ y.
Proof.
  intros (vs1 & vs2 & ->)%list_elem_of_split.
  rewrite answer_text_app. simpl. by eexists _, _.
Qed.

Lemma joined_answer_contains vs d text :
  (d, text) ∈ vs → PyStr.contains (PyStr.strip text) (joined_answer vs) = true.
Proof.
  intros Hin. destruct (answer_text_split vs d text Hin) as (x & y & Heq).
  unfold joined_answer. destruct vs; [by apply elem_of_nil in Hin|].
  rewrite Heq. apply strip_occurs.
Qed.

(** * The claims *)

(** C1.  The claim: a result whose text carries a negative phrase is kept
    out of the combined answer and adds nothing to the source map, markers
    and citations notwithstanding.  The code keeps the text out (see
    [negative_results_do_not_contribute]) but has already written the
    source-map entries at line 203 when it tests the phrase at line 206: for
    the single result of document 7 with the text
    "NOT MENTIONED IN the contract [doc1]." and the citation
    "abc123_Contract.pdf", the answer is the fallback and the returned map
    holds "7_1". *)
Theorem negative_result_leaves_sources :
  let text := "NOT MENTIONED IN the contract [doc1]." in
  let r := ("7", answered text ["abc123_Contract.pdf"]) in
  is_negative text = true ∧
  (run_aggregate [r]).2
  = Returned (fallback_answer, {[ "7_1" := "Contract.pdf" ]}).
Proof. split; vm_compute; reflexivity. Qed.

(** C2.  The claim: when no result contributes, the fallback answer comes
    with an empty source map.  The code returns [all_sources] as it stands:
    with a result without markers for document 3 and a negative result with
    a marker and citations for document 7, no result contributes, the answer
    is the fallback, and the returned map holds "7_2". *)
Theorem fallback_answer_with_sources :
  let rs := [ ("3", answered "The report covers 2023." ["r_Report.pdf"]);
              ("7", answered "There is no information available. [doc2]"
                             ["x_Plan.pdf"; "y_Budget.pdf"]) ] in
  valid_results (run_aggregate rs).1 = [] ∧
  (run_aggregate rs).2
  = Returned (fallback_answer, {[ "7_2" := "Budget.pdf" ]}) ∧
  ({[ "7_2" := "Budget.pdf" ]} : gmap string string) ≠ ∅.
Proof.
  split_and!; [vm_compute; reflexivity..|].
  apply insert_non_empty.
Qed.

(** C3, as stated, fails on two counts.  Two results that carry the same
    document identifier write the same key, and the one that arrives last
    wins.  And the answer is trimmed as a whole: a text that ends in a line
    feed occurs in the answer when another text follows it, and not when it
    comes last. *)
Lemma arrival_order_counterexample :
  let a := ("7", answered "Two years [doc1]." ["A.pdf"]) in
  let b := ("7", answered "Five years [doc1]." ["B.pdf"]) in
  let text := "Two years [doc1]." +:+ String "010" "" in
  let c := ("7", answered text ["A.pdf"]) in
  let d := ("8", answered "Five years [doc1]." ["B.pdf"]) in
  ([a; b] ≡ₚ [b; a] ∧
   (∃ answer, (run_aggregate [a; b]).2 = Returned (answer, {[ "7_1" := "B.pdf" ]})) ∧
   (∃ answer, (run_aggregate [b; a]).2 = Returned (answer, {[ "7_1" := "A.pdf" ]})) ∧
   ({[ "7_1" := "B.pdf" ]} : gmap string string) ≠ {[ "7_1" := "A.pdf" ]}) ∧
  ([c; d] ≡ₚ [d; c] ∧
   ∃ answer answer' sources,
     (run_aggregate [c; d]).2 = Returned (answer, sources) ∧
     (run_aggregate [d; c]).2 = Returned (answer', sources) ∧
     PyStr.contains text answer = true ∧
     PyStr.contains text answer' = false).
Proof.
  split; split_and!.
  - apply perm_swap.
  - eexists. vm_compute. reflexivity.
  - eexists. vm_compute. reflexivity.
  - intros H. apply (f_equal (λ m : gmap string string, m !! "7_1")) in H.
    by rewrite !lookup_singleton_eq in H.
  - apply perm_swap.
  - do 3 eexists. split_and!; vm_compute; reflexivity.
Qed.

(** C3, amended.  When the results carry pairwise distinct document
    identifiers, every order of arrival gives the same source map; the
    answers are joined from the same contributing texts, in the order of
    arrival, and every contributing text, trimmed, occurs in both. *)
Theorem arrival_order_independent rs rs' :
  rs ≡ₚ rs' → NoDup rs.*1 →
  ∃ sources vs vs',
    (run_aggregate rs).2 = Returned (joined_answer vs, sources) ∧
    (run_aggregate rs').2 = Returned (joined_answer vs', sources) ∧
    valid_results (run_aggregate rs).1 = vs ∧
    valid_results (run_aggregate rs').1 = vs' ∧
    vs ≡ₚ vs' ∧
    ∀ doc_id text, (doc_id, text) ∈ vs →
      PyStr.contains (PyStr.strip text) (joined_answer vs) = true ∧
      PyStr.contains (PyStr.strip text) (joined_answer vs') = true.
Proof.
  intros Hperm Hnd.
  destruct (run_aggregate_frames rs) as [lg ->].
  destruct (run_aggregate_frames rs') as [lg' ->]. simpl.
  exists (apply_writes (rs ≫= result_writes) ∅),
         (rs ≫= result_valid), (rs' ≫= result_valid).
  assert (rs ≫= result_valid ≡ₚ rs' ≫= result_valid) as Hvalid by (by rewrite Hperm).
  split_and!; [done| |done..|].
  - by rewrite (writes_permutation rs rs' Hperm Hnd).
  - intros d text Hin. split; [by eapply joined_answer_contains|].
    eapply joined_answer_contains. by rewrite <- Hvalid.
Qed.

Lemma arrival_order_independent_witness :
  let a := ("7", answered "Two years [doc1]." ["A.pdf"]) in
  let b := ("8", answered "Five years [doc1]." ["B.pdf"]) in
  [a; b] ≡ₚ [b; a] ∧ NoDup [a; b].*1 ∧
  ∃ sources vs vs',
    (run_aggregate [a; b]).2 = Returned (joined_answer vs, sources) ∧
    (run_aggregate [b; a]).2 = Returned (joined_answer vs', sources) ∧
    valid_results (run_aggregate [a; b]).1 = vs ∧
    valid_results (run_aggregate [b; a]).1 = vs' ∧
    vs ≡ₚ vs' ∧
    ∀ doc_id text, (doc_id, text) ∈ vs →
      PyStr.contains (PyStr.strip text) (joined_answer vs) = true ∧
      PyStr.contains (PyStr.strip text) (joined_answer vs') = true.
Proof.
  intros a b.
  assert ([a; b] ≡ₚ [b; a]) as Hperm by apply perm_swap.
  assert (NoDup [a; b].*1) as Hnd by (apply (bool_decide_unpack _); vm_compute; exact I).
  split_and!; [done..|]. exact (arrival_order_independent _ _ Hperm Hnd).
Defined.

(** C4.  When the identifiers resolve to a non-empty list and every search
    request fails, the function returns the no-results answer and an empty
    map. *)
Theorem every_search_fails env arrival q doc_ids compound_id σ ids :
  resolve_doc_ids env doc_ids compound_id initial_state = (σ, Returned (Some ids)) →
  ids ≠ [] →
  (∀ n d, ids !! n = Some d →
          chat_completions_create env n q (index_name_of d) = None) →
  (run_search env arrival q doc_ids compound_id).2
  = Returned ("I couldn't find relevant information in the documents.", ∅).
Proof.
  intros Hres Hids Hfail. unfold run_search, search_documents.
  rewrite (bind_returned _ _ _ _ _ Hres).
  destruct (search_resolved_runs env arrival q ids σ Hids) as [lg ->].
  destruct (resolve_doc_ids_state env doc_ids compound_id initial_state) as [lg0 Hσ].
  rewrite Hres in Hσ. simpl in Hσ. subst σ.
  by rewrite (omap_collected_failures _ _ _ _ Hfail).
Qed.

Lemma every_search_fails_witness :
  let env := {| ipx_documents := None;
                chat_completions_create := λ _ _ _, None |} in
  (run_search env [1; 0]%nat "How long is the NDA valid for?"
              (Some ["7"; "8"]) None).2
  = Returned ("I couldn't find relevant information in the documents.", ∅).
Proof.
  intros env.
  apply (every_search_fails env [1; 0]%nat _ (Some ["7"; "8"]) None
           initial_state ["7"; "8"]); [reflexivity | discriminate | reflexivity].
Defined.

(** C5.  Without explicit identifiers, and with no tenant identifier or no
    indexed document of the tenant, the function returns the no-documents
    answer and an empty map; the log holds the records of the resolution
    and of the guard of line 112 only, nothing was collected and nothing
    aggregated. *)
Theorem nothing_to_search env arrival q doc_ids compound_id :
  none_or_empty doc_ids = true →
  truthy compound_id = None ∨
  (∃ c rows, truthy compound_id = Some c ∧ ipx_documents env = Some rows ∧
             ∀ r, r ∈ rows → ¬ indexed_for c r) →
  ∃ σ,
    run_search env arrival q doc_ids compound_id
    = (σ, Returned ("I don't have any relevant documents to search through.", ∅)) ∧
    (log σ = [Warning_no_ids_provided] ∨
     ∃ c, log σ = [Info_found_indexed 0 c; Warning_no_ids_available]) ∧
    all_results σ = [] ∧ all_sources σ = ∅ ∧ valid_results σ = [].
Proof.
  intros Hd [Hc|(c & rows & Hc & Hrows & Hnone)];
    unfold run_search, search_documents.
  - rewrite (bind_returned _ _ _ _ _
               (resolve_nothing env doc_ids compound_id initial_state Hd Hc)).
    eexists. split; [done|]. split_and!; [by left|done..].
  - rewrite (bind_returned _ _ _ _ _
               (resolve_from_table env doc_ids compound_id c rows initial_state
                  Hd Hc Hrows)).
    assert (filter (indexed_for c) rows = []) as ->.
    { destruct (filter (indexed_for c) rows) as [|r l] eqn:Hf; [done|].
      assert (r ∈ filter (indexed_for c) rows) as [? ?]%list_elem_of_filter
        by (rewrite Hf; left).
      by destruct (Hnone r). }
    simpl. rewrite (bind_returned _ _ _ _ _ (logging_advance _ _)).
    eexists. split; [done|]. split_and!; [right; by exists c|done..].
Qed.

Lemma nothing_to_search_witness :
  let env := {| ipx_documents :=
                  Some [ {| row_id := 4; row_compound_id := "acme";
                            row_status := "processing" |};
                         {| row_id := 5; row_compound_id := "other";
                            row_status := "indexed" |} ];
                chat_completions_create := λ _ _ _, None |} in
  ∃ σ,
    run_search env [] "What is our inventory now?" (Some []) (Some "acme")
    = (σ, Returned ("I don't have any relevant documents to search through.", ∅)) ∧
    (log σ = [Warning_no_ids_provided] ∨
     ∃ c, log σ = [Info_found_indexed 0 c; Warning_no_ids_available]) ∧
    all_results σ = [] ∧ all_sources σ = ∅ ∧ valid_results σ = [].
Proof.
  intros env. apply nothing_to_search; [reflexivity|].
  right. eexists "acme", _. split_and!; [reflexivity..|].
  intros r Hr [Hc Hs].
  apply elem_of_cons in Hr as [->|Hr]; [discriminate Hs|].
  apply list_elem_of_singleton in Hr as ->. discriminate Hc.
Defined.

(** C6.  Two documents with distinct identifiers, each with one result
    whose text holds a [[doc1]] marker and whose citation list is not
    empty: the returned map holds both "{id1}_1" and "{id2}_1", the keys
    differ, and each maps to the stored title of the first citation of its
    own document. *)
Theorem citation_keys_do_not_collide rs id1 id2
    pre1 post1 cit1 cits1 pre2 post2 cit2 cits2 :
  let result1 := {| response_json :=
       Some [ {| content := Some (pre1 +:+ "[doc1]" +:+ post1);
                 citations := cit1 :: cits1 |} ] |} in
  let result2 := {| response_json :=
       Some [ {| content := Some (pre2 +:+ "[doc1]" +:+ post2);
                 citations := cit2 :: cits2 |} ] |} in
  id1 ≠ id2 →
  (id1, result1) ∈ rs → (∀ x, (id1, x) ∈ rs → x = result1) →
  (id2, result2) ∈ rs → (∀ x, (id2, x) ∈ rs → x = result2) →
  ∃ answer sources,
    (run_aggregate rs).2 = Returned (answer, sources) ∧
    id1 +:+ "_1" ≠ id2 +:+ "_1" ∧
    sources !! (id1 +:+ "_1") = Some (clean_file_title (title cit1)) ∧
    sources !! (id2 +:+ "_1") = Some (clean_file_title (title cit2)).
Proof.
  intros result1 result2 Hne Hin1 Huniq1 Hin2 Huniq2.
  destruct (run_aggregate_frames rs) as [lg ->]. simpl.
  do 2 eexists. split; [done|].
  assert (∀ d pre post cit cits,
    let result := {| response_json :=
         Some [ {| content := Some (pre +:+ "[doc1]" +:+ post);
                   citations := cit :: cits |} ] |} in
    (d, result) ∈ rs → (∀ x, (d, x) ∈ rs → x = result) →
    apply_writes (rs ≫= result_writes) ∅ !! source_key d 1
    = Some (clean_file_title (title cit))) as Hlookup.
  { intros d pre post cit cits result Hin Huniq.
    apply lookup_apply_writes_const.
    - apply list_elem_of_bind. exists (d, result). split; [|done].
      apply result_writes_elem. eexists _, _, 1%N, cit.
      split_and!; [by left | done | | done..].
      apply (marker_extracted pre "1" post); done.
    - intros v' ([d' x] & Hw & Hr)%list_elem_of_bind.
      apply result_writes_elem in Hw
        as (c & text & n & cit' & Hc & Htext & _ & _ & Hcit & [= Hk ->]).
      apply source_key_inj in Hk as [Hd Hn]. simpl in Hd. subst d' n.
      rewrite (Huniq x Hr) in Hc.
      apply list_elem_of_singleton in Hc as ->. by injection Hcit as ->. }
  split_and!.
  - intros Hk. by apply (source_key_inj id1 1 id2 1) in Hk as [? _].
  - by apply (Hlookup id1 pre1 post1 cit1 cits1).
  - by apply (Hlookup id2 pre2 post2 cit2 cits2).
Qed.

Lemma citation_keys_do_not_collide_witness :
  let rs := [ ("7", answered ("See " +:+ "[doc1]" +:+ ".") ["abc123_Contract.pdf"]);
              ("8", answered ("Also " +:+ "[doc1]" +:+ "!") ["Lease.pdf"]) ] in
  ∃ answer sources,
    (run_aggregate rs).2 = Returned (answer, sources) ∧
    "7" +:+ "_1" ≠ "8" +:+ "_1" ∧
    sources !! ("7" +:+ "_1") = Some "Contract.pdf" ∧
    sources !! ("8" +:+ "_1") = Some "Lease.pdf".
Proof.
  intros rs.
  apply (citation_keys_do_not_collide rs "7" "8"
           "See " "." {| title := "abc123_Contract.pdf" |} []
           "Also " "!" {| title := "Lease.pdf" |} []).
  - discriminate.
  - left.
  - intros x [[= ->]|[[=]|[]%elem_of_nil]%elem_of_cons]%elem_of_cons. reflexivity.
  - right. left.
  - intros x [[=]|[[= ->]|[]%elem_of_nil]%elem_of_cons]%elem_of_cons. reflexivity.
Defined.

(** C7.  When the request for one document raises, the search client
    returns the identifier with no completion instead of raising, and the
    fan-out ends normally with every completion that the other requests
    obtained. *)
Theorem search_failure_is_contained env q ids arrival n d σ :
  ids !! n = Some d →
  chat_completions_create env n q (index_name_of d) = None →
  (∃ σ', search_single_index env q n d σ = (σ', Returned (d, None))) ∧
  ∃ σ', fan_out env q ids arrival σ = (σ', Returned tt) ∧
        ∀ m d' c, m ∈ arrival → ids !! m = Some d' →
                  chat_completions_create env m q (index_name_of d') = Some c →
                  (d', c) ∈ all_results σ'.
Proof.
  intros Hd Hfail. split.
  - rewrite search_single_index_runs, Hfail. by eexists.
  - destruct (fan_out_runs env q ids arrival σ) as [lg ->].
    eexists. split; [done|]. intros m d' c Hm Hd' Hc. simpl.
    apply elem_of_app. right. apply list_elem_of_omap. exists m.
    split; [done|]. unfold collected. rewrite Hd'. simpl. by rewrite Hc.
Qed.

Lemma search_failure_is_contained_witness :
  let env := {| ipx_documents := None;
                chat_completions_create := λ n _ _,
                  match n with
                  | 1%nat => None
                  | _ => Some (answered "Two years [doc1]." ["A.pdf"])
                  end |} in
  (∃ σ', search_single_index env "q" 1 "8" initial_state
         = (σ', Returned ("8", None))) ∧
  ∃ σ', fan_out env "q" ["7"; "8"; "9"] [2; 1; 0]%nat initial_state
        = (σ', Returned tt) ∧
        ∀ m d' c, m ∈ [2; 1; 0]%nat → ["7"; "8"; "9"] !! m = Some d' →
                  chat_completions_create env m "q" (index_name_of d') = Some c →
                  (d', c) ∈ all_results σ'.
Proof.
  intros env.
  apply (search_failure_is_contained env "q" ["7"; "8"; "9"] [2; 1; 0]%nat
           1%nat "8" initial_state); reflexivity.
Defined.

(** C8.  Every title in the returned source map is the title of a citation
    of one of the results, cut behind its first underscore when it has one
    and unchanged when it has none. *)
Theorem stored_titles_are_stripped rs answer sources k v :
  (run_aggregate rs).2 = Returned (answer, sources) →
  sources !! k = Some v →
  ∃ doc_id completion choices c cit,
    (doc_id, completion) ∈ rs ∧ response_json completion = Some choices ∧
    c ∈ choices ∧ cit ∈ citations c ∧
    v = clean_file_title (title cit) ∧
    if PyStr.contains "_" (title cit)
    then ∃ pre, PyStr.contains "_" pre = false ∧ title cit = pre +:+ "_" +:+ v
    else v = title cit.
Proof.
  destruct (run_aggregate_frames rs) as [lg ->]. simpl. intros [= _ <-] Hk.
  apply lookup_apply_writes_Some in Hk as [Hk|Hk]; [|by rewrite lookup_empty in Hk].
  apply list_elem_of_bind in Hk as ([d x] & Hw & Hr).
  apply result_writes_elem in Hw
    as (c & text & n & cit & Hc & _ & _ & _ & Hcit & [= _ ->]).
  unfold result_choices in Hc. simpl in Hc.
  destruct (response_json x) as [cs|] eqn:Hcs; [|by apply elem_of_nil in Hc].
  exists d, x, cs, c, cit.
  split_and!; [done | done | by apply reached_elem
              | by eapply list_elem_of_lookup_2 | done |].
  destruct (PyStr.contains "_" (title cit)) eqn:Ht.
  - by apply clean_file_title_underscore.
  - by apply clean_file_title_plain.
Qed.

Lemma stored_titles_are_stripped_witness :
  let rs := [ ("7", answered "Two years [doc1]." ["abc123_Contract.pdf"]) ] in
  ∃ doc_id completion choices c cit,
    (doc_id, completion) ∈ rs ∧ response_json completion = Some choices ∧
    c ∈ choices ∧ cit ∈ citations c ∧
    "Contract.pdf" = clean_file_title (title cit) ∧
    if PyStr.contains "_" (title cit)
    then ∃ pre, PyStr.contains "_" pre = false ∧
                title cit = pre +:+ "_" +:+ "Contract.pdf"
    else "Contract.pdf" = title cit.
Proof.
  intros rs.
  apply (stored_titles_are_stripped rs "Two years [doc1]."
           {[ "7_1" := "Contract.pdf" ]} "7_1" "Contract.pdf").
  - vm_compute. reflexivity.
  - vm_compute. reflexivity.
Defined.

(** C9.  A non-empty explicit list is returned as it is, whatever the
    table and the tenant.  With no explicit identifier and a tenant
    identifier, the table is queried and the identifiers returned are those
    of the tenant's rows of status 'indexed'.  In every other case the
    table plays no part in the outcome. *)
Theorem index_resolution env doc_ids compound_id σ :
  (∀ l, doc_ids = Some l → l ≠ [] →
        resolve_doc_ids env doc_ids compound_id σ = (σ, Returned (Some l))) ∧
  (∀ c rows, none_or_empty doc_ids = true → truthy compound_id = Some c →
             ipx_documents env = Some rows →
             ∃ σ' ids,
               resolve_doc_ids env doc_ids compound_id σ = (σ', Returned (Some ids)) ∧
               ∀ s, s ∈ ids ↔
                    ∃ r, r ∈ rows ∧ row_compound_id r = c ∧
                         row_status r = "indexed" ∧ s = pretty (row_id r)) ∧
  (none_or_empty doc_ids = false ∨ truthy compound_id = None →
   ∀ env', resolve_doc_ids env' doc_ids compound_id σ
           = resolve_doc_ids env doc_ids compound_id σ).
Proof.
  split_and!.
  - intros l -> Hl. by apply resolve_explicit.
  - intros c rows Hd Hc Hrows. do 2 eexists.
    split; [by apply resolve_from_table|].
    intros s. rewrite list_elem_of_fmap. split.
    + intros (r & -> & [[? ?] ?]%list_elem_of_filter). by exists r.
    + intros (r & ? & ? & ? & ->). exists r. split; [done|].
      by apply list_elem_of_filter.
  - intros [Hd|Hc] env'.
    + unfold resolve_doc_ids. by rewrite Hd.
    + unfold resolve_doc_ids. rewrite Hc. by destruct (none_or_empty doc_ids).
Qed.

Lemma index_resolution_witness :
  let env := {| ipx_documents :=
                  Some [ {| row_id := 4; row_compound_id := "acme";
                            row_status := "indexed" |};
                         {| row_id := 5; row_compound_id := "acme";
                            row_status := "failed" |};
                         {| row_id := 6; row_compound_id := "other";
                            row_status := "indexed" |} ];
                chat_completions_create := λ _ _ _, None |} in
  resolve_doc_ids env (Some ["7"; "8"]) (Some "acme") initial_state
  = (initial_state, Returned (Some ["7"; "8"])) ∧
  (∃ σ' ids,
     resolve_doc_ids env None (Some "acme") initial_state
     = (σ', Returned (Some ids)) ∧
     ∀ s, s ∈ ids ↔
          ∃ r, r ∈ default [] (ipx_documents env) ∧ row_compound_id r = "acme" ∧
               row_status r = "indexed" ∧ s = pretty (row_id r)) ∧
  ∀ env', resolve_doc_ids env' (Some []) None initial_state
          = resolve_doc_ids env (Some []) None initial_state.
Proof.
  intros env. split_and!.
  - apply (proj1 (index_resolution env (Some ["7"; "8"]) (Some "acme")
                    initial_state) ["7"; "8"]); [reflexivity | discriminate].
  - apply (proj1 (proj2 (index_resolution env None (Some "acme") initial_state))
             "acme"); reflexivity.
  - apply (proj2 (proj2 (index_resolution env (Some []) None initial_state))).
    right. reflexivity.
Defined.

(** C10.  A marker whose number is no position of the citation list (zero,
    or beyond the end) does not make the processing of the choice raise and
    leaves the source map without change at its key; the markers that are
    positions of the list get their entries, and the text is appended to
    the answer exactly when the result contributes. *)
Theorem out_of_range_marker_is_skipped doc_id c text K σ :
  content c = Some text →
  K ∈ (extract_doc_numbers text).1 →
  ¬ (0 ≤ Z.of_N K - 1 < Z.of_nat (length (citations c))) →
  ∃ σ',
    process_choice doc_id c σ = (σ', Returned tt) ∧
    all_sources σ' !! source_key doc_id K = all_sources σ !! source_key doc_id K ∧
    (∀ n cit, n ∈ (extract_doc_numbers text).1 → (1 ≤ n)%N →
              citations c !! (N.to_nat n - 1)%nat = Some cit →
              all_sources σ' !! source_key doc_id n
              = Some (clean_file_title (title cit))) ∧
    (if contributes text (citations c)
     then valid_results σ' = valid_results σ ++ [(doc_id, text)] ∧
          combined_answer σ' = combined_answer σ +:+ text +:+ two_newlines
     else valid_results σ' = valid_results σ ∧
          combined_answer σ' = combined_answer σ).
Proof.
  intros Hc HK Hrange.
  destruct (frames_choice doc_id c text Hc σ) as [lg ->].
  eexists. split; [done|]. simpl. split_and!.
  - apply lookup_apply_writes_absent. intros v
      (text' & n & cit & _ & _ & Hn & Hcit & [= Hk _])%choice_writes_elem.
    apply source_key_inj in Hk as [_ <-]. apply lookup_lt_Some in Hcit. lia.
  - intros n cit Hn H1 Hcit. apply lookup_apply_writes_const.
    + apply choice_writes_elem. by exists text, n, cit.
    + intros v'
        (text' & n' & cit' & _ & _ & _ & Hcit' & [= Hk ->])%choice_writes_elem.
      apply source_key_inj in Hk as [_ <-]. congruence.
  - unfold choice_valid. rewrite Hc.
    destruct (contributes text (citations c)); simpl.
    + by rewrite app_empty_r.
    + by rewrite app_nil_r, app_empty_r.
Qed.

Lemma out_of_range_marker_is_skipped_witness :
  let text := "Two years [doc1], see also [doc5] and [doc0]." in
  let c := {| content := Some text;
              citations := [ {| title := "abc123_Contract.pdf" |};
                             {| title := "Lease.pdf" |} ] |} in
  ∃ σ',
    process_choice "7" c initial_state = (σ', Returned tt) ∧
    all_sources σ' !! source_key "7" 5 = all_sources initial_state !! source_key "7" 5 ∧
    (∀ n cit, n ∈ (extract_doc_numbers text).1 → (1 ≤ n)%N →
              citations c !! (N.to_nat n - 1)%nat = Some cit →
              all_sources σ' !! source_key "7" n
              = Some (clean_file_title (title cit))) ∧
    (if contributes text (citations c)
     then valid_results σ' = valid_results initial_state ++ [("7", text)] ∧
          combined_answer σ' = combined_answer initial_state +:+ text +:+ two_newlines
     else valid_results σ' = valid_results initial_state ∧
          combined_answer σ' = combined_answer initial_state).
Proof.
  intros text c.
  apply (out_of_range_marker_is_skipped "7" c text 5 initial_state).
  - reflexivity.
  - vm_compute. right. left.
  - simpl. lia.
Defined.

(** * Further properties of the search function *)

(** ** Extraction of the markers *)

Lemma startswith_true p s : PyStr.startswith p s = true → ∃ r, s = p +:+ r.
Proof.
  revert s. induction p as [|a p IH]; intros s; [by exists s|].
  destruct s as [|b s]; [done|]. simpl.
  intros [->%bool_decide_eq_true [r ->]%IH]%andb_true_iff. by exists r.
Qed.

Lemma digits_prefix_split s :
  ∃ r, s = PyStr.digits_prefix s +:+ r ∧ all_digits (PyStr.digits_prefix s) = true.
Proof.
  induction s as [|c s (r & IH & Hd)]; [by exists ""|]. simpl.
  destruct (PyStr.digit_value c) as [v|] eqn:Hc.
  - exists r. rewrite app_cons, <- IH. split; [done|]. simpl.
    rewrite Hd, andb_true_r. apply bool_decide_eq_true. by rewrite Hc.
  - by eexists.
Qed.

Lemma match_marker_Some s g len :
  match_marker s = Some (g, len) →
  ∃ rest, s = "[doc" +:+ g +:+ "]" +:+ rest ∧ all_digits g = true ∧ g ≠ "".
Proof.
  unfold match_marker. destruct (PyStr.startswith "[doc" s) eqn:Hs; [|done].
  apply startswith_true in Hs as [s4 ->].
  change (PyStr.drop 4 ("[doc" +:+ s4)) with s4.
  change (PyStr.drop (4 + ?n) ("[doc" +:+ s4)) with (PyStr.drop n s4).
  destruct (digits_prefix_split s4) as (r & Hsplit & Hd).
  destruct (PyStr.digits_prefix s4) as [|d ds] eqn:Hds; [done|].
  rewrite Hsplit at 1. rewrite drop_app.
  destruct r as [|b r]; [done|].
  destruct (decide (b = "]"%char)) as [->|Hb].
  - intros [= <- _]. exists r. split; [|done].
    rewrite Hsplit at 1. done.
  - intros H. exfalso. revert H. by destruct b as [[] [] [] [] [] [] [] []].
Qed.

Lemma findall_from_sound skip text g :
  g ∈ findall_from skip text →
  ∃ pre post, text = pre +:+ "[doc" +:+ g +:+ "]" +:+ post ∧
              all_digits g = true ∧ g ≠ "".
Proof.
  revert skip. induction text as [|c t IH]; intros skip; [by intros ?%elem_of_nil|].
  assert (∀ k, g ∈ findall_from k t →
    ∃ pre post, String c t = pre +:+ "[doc" +:+ g +:+ "]" +:+ post ∧
                all_digits g = true ∧ g ≠ "") as Hnext.
  { intros k (pre & post & -> & ?)%IH. by exists (String c pre), post. }
  simpl. destruct skip as [|k]; [|apply Hnext].
  destruct (match_marker (String c t)) as [[g' len]|] eqn:Hm; [|apply Hnext].
  intros [->|Hin]%elem_of_cons; [|by eapply Hnext].
  apply match_marker_Some in Hm as (rest & -> & ?). by exists "", rest.
Qed.


(** ** Negative phrases *)

Lemma lower_app s t : PyStr.lower (s +:+ t) = PyStr.lower s +:+ PyStr.lower t.
Proof. induction s as [|a s IH]; [done|]. rewrite app_cons. simpl. by rewrite IH. Qed.

Lemma lower_char_idemp a : PyStr.lower_char (PyStr.lower_char a) = PyStr.lower_char a.
Proof. by destruct a as [[] [] [] [] [] [] [] []]. Qed.

Lemma lower_idemp s : PyStr.lower (PyStr.lower s) = PyStr.lower s.
Proof. induction s as [|a s IH]; [done|]. simpl. by rewrite lower_char_idemp, IH. Qed.

Lemma lower_app_inv t a b :
  PyStr.lower t = a +:+ b →
  ∃ ta tb, t = ta +:+ tb ∧ PyStr.lower ta = a ∧ PyStr.lower tb = b.
Proof.
  revert t. induction a as [|x a IH]; intros t Ht.
  - by exists "", t.
  - destruct t as [|y t]; [done|]. rewrite app_cons in Ht. simpl in Ht.
    injection Ht as Hx Ht. destruct (IH t Ht) as (ta & tb & -> & <- & <-).
    exists (String y ta), tb. simpl. by rewrite Hx.
Qed.

Lemma contains_true p s : PyStr.contains p s = true → ∃ a b, s = a +:+ p +:+ b.
Proof.
  induction s as [|c s IH]; simpl.
  - rewrite orb_false_r. intros [r Hr]%startswith_true. by exists "", r.
  - intros [[r Hr]%startswith_true|(a & b & ->)%IH]%orb_true_iff.
    + by exists "", r.
    + by exists (String c a), b.
Qed.

(** X2.  A text is classified as negative if and only if it holds one of
    the seven phrases in some mix of upper and lower case. *)
Theorem negative_iff_phrase_in_any_case text :
  is_negative text = true ↔
  ∃ phrase pre v post,
    phrase ∈ negative_phrases ∧ text = pre +:+ v +:+ post ∧
    PyStr.lower v = phrase.
Proof.
  unfold is_negative. rewrite existsb_exists. split.
  - intros (phrase & Hin%list_elem_of_In & Hc).
    assert (PyStr.lower phrase = phrase) as Hlow.
    { clear Hc. unfold negative_phrases in Hin.
      repeat (apply elem_of_cons in Hin as [->|Hin]; [by vm_compute|]).
      by apply elem_of_nil in Hin. }
    rewrite Hlow in Hc. apply contains_true in Hc as (a & b & Hab).
    apply lower_app_inv in Hab as (pre & rest & -> & _ & Hrest).
    apply lower_app_inv in Hrest as (v & post & -> & Hv & _).
    by exists phrase, pre, v, post.
  - intros (phrase & pre & v & post & Hin & -> & Hv).
    exists phrase. split; [by apply list_elem_of_In|].
    rewrite !lower_app, Hv, <- Hv, lower_idemp. apply contains_middle.
Qed.

(** ** Which results count *)

Lemma reached_elem_iff c cs :
  c ∈ reached cs ↔
  ∃ cs1 cs2, cs = cs1 ++ c :: cs2 ∧
             Forall (λ c', content c' ≠ None) cs1 ∧ content c ≠ None.
Proof.
  induction cs as [|c' cs IH]; simpl.
  - split; [by intros ?%elem_of_nil|]. by intros ([|??] & ? & ? & _).
  - destruct (content c') as [text|] eqn:Hc'.
    + rewrite elem_of_cons, IH. split.
      * intros [->|(cs1 & cs2 & -> & Hall & Hc)].
        -- exists [], cs. by rewrite Hc'.
        -- exists (c' :: cs1), cs2. split_and!; [done| |done].
           constructor; [by rewrite Hc'|done].
      * intros ([|c'' cs1] & cs2 & Heq & Hall & Hc); simplify_eq/=; [by left|].
        right. exists cs1, cs2. split_and!; [done| |done].
        by apply Forall_cons in Hall as [_ ?].
    + split; [by intros ?%elem_of_nil|].
      intros ([|c'' cs1] & cs2 & Heq & Hall & Hc); simplify_eq/=.
      by apply Forall_cons in Hall as [? _].
Qed.

Lemma extract_doc_numbers_flag_true text :
  (extract_doc_numbers text).2 = true ↔ (extract_doc_numbers text).1 ≠ [].
Proof. unfold extract_doc_numbers. by destruct (findall_doc text). Qed.

Lemma choice_valid_elem d c d' text :
  (d', text) ∈ choice_valid d c ↔
  d' = d ∧ content c = Some text ∧ (extract_doc_numbers text).1 ≠ [] ∧
  citations c ≠ [] ∧ is_negative text = false.
Proof.
  unfold choice_valid, contributes, has_citations.
  destruct (content c) as [text'|]; [|split; [by intros ?%elem_of_nil|by intros (_&?&_)]].
  rewrite <- extract_doc_numbers_flag_true.
  destruct ((extract_doc_numbers text').2) eqn:Hflag; simpl.
  - case_bool_decide as Hcs; simpl.
    + split; [by intros ?%elem_of_nil|]. by intros (_ & [= ->] & _ & ? & _).
    + destruct (is_negative text') eqn:Hneg; simpl.
      * split; [by intros ?%elem_of_nil|]. intros (_ & [= ->] & _ & _ & ?). congruence.
      * rewrite list_elem_of_singleton. split.
        -- by intros [= -> ->].
        -- by intros (-> & [= ->] & _).
  - split; [by intros ?%elem_of_nil|]. intros (_ & [= ->] & ? & _). congruence.
Qed.

(** X3.  The texts appended to the answer are exactly those of the choices
    that the loop reaches (no choice before them in their result has a null
    content) and that hold at least one marker, come with a non-empty
    citation list and carry no negative phrase. *)
Theorem contribution_iff rs doc_id text :
  (doc_id, text) ∈ valid_results (run_aggregate rs).1 ↔
  ∃ completion cs1 c cs2,
    (doc_id, completion) ∈ rs ∧
    response_json completion = Some (cs1 ++ c :: cs2) ∧
    Forall (λ c', content c' ≠ None) cs1 ∧
    content c = Some text ∧
    (extract_doc_numbers text).1 ≠ [] ∧
    citations c ≠ [] ∧
    is_negative text = false.
Proof.
  destruct (run_aggregate_frames rs) as [lg ->]. simpl.
  rewrite list_elem_of_bind. split.
  - intros ([d x] & Hin & Hr). unfold result_valid, result_choices in Hin.
    simpl in Hin. apply list_elem_of_bind in Hin as (c & Hv & Hc).
    apply choice_valid_elem in Hv as (-> & Htext & ? & ? & ?).
    destruct (response_json x) as [cs|] eqn:Hcs; [|by apply elem_of_nil in Hc].
    apply reached_elem_iff in Hc as (cs1 & cs2 & -> & Hall & _).
    by exists x, cs1, c, cs2.
  - intros (x & cs1 & c & cs2 & Hr & Hcs & Hall & Htext & ? & ? & ?).
    exists (doc_id, x). split; [|done].
    unfold result_valid, result_choices. simpl. rewrite Hcs.
    apply list_elem_of_bind. exists c. split.
    + by apply choice_valid_elem.
    + apply reached_elem_iff. exists cs1, cs2. by rewrite Htext.
Qed.

(** The outcome of the aggregation is that of the summaries of the
    results. *)
Lemma run_aggregate_outcome rs :
  (run_aggregate rs).2
  = Returned (joined_answer (rs ≫= result_valid),
              apply_writes (rs ≫= result_writes) ∅).
Proof. by destruct (run_aggregate_frames rs) as [lg ->]. Qed.

Lemma bind_app_cons {A B} (f : A → list B) l1 x l2 :
  (l1 ++ x :: l2) ≫= f = (l1 ≫= f) ++ f x ++ (l2 ≫= f).
Proof. by rewrite bind_app, bind_cons. Qed.


(** X4.  The aggregation never raises, whatever the payloads. *)
Theorem aggregation_never_raises rs :
  ∃ answer sources, (run_aggregate rs).2 = Returned (answer, sources).
Proof. rewrite run_aggregate_outcome. by eexists _, _. Qed.



Lemma reached_null cs1 c cs2 :
  content c = None → reached (cs1 ++ c :: cs2) = reached cs1.
Proof.
  intros Hc. induction cs1 as [|c' cs1 IH]; simpl; [by rewrite Hc|].
  by rewrite IH.
Qed.

(** X6.  A choice with a null content ends the processing of its result:
    the choices after it count for nothing, those before it count as if
    they were the whole result. *)
Theorem null_content_ends_the_result rs1 doc_id cs1 c cs2 rs2 :
  content c = None →
  (run_aggregate
     (rs1 ++ (doc_id, {| response_json := Some (cs1 ++ c :: cs2) |}) :: rs2)).2
  = (run_aggregate
       (rs1 ++ (doc_id, {| response_json := Some cs1 |}) :: rs2)).2.
Proof.
  intros Hc. rewrite !run_aggregate_outcome, !bind_app_cons.
  unfold result_writes, result_valid, result_choices. simpl.
  by rewrite reached_null.
Qed.

Lemma null_content_ends_the_result_witness :
  let first := {| content := Some "Two years [doc1].";
                  citations := [ {| title := "A.pdf" |} ] |} in
  let null := {| content := None; citations := [] |} in
  let last := {| content := Some "Five years [doc1].";
                 citations := [ {| title := "B.pdf" |} ] |} in
  (run_aggregate [("7", {| response_json := Some [first; null; last] |})]).2
  = (run_aggregate [("7", {| response_json := Some [first] |})]).2.
Proof.
  intros first null last.
  apply (null_content_ends_the_result [] "7" [first] null [last] []).
  reflexivity.
Defined.

(** ** The keys of the source map *)

Lemma apply_writes_is_Some ws k :
  is_Some (apply_writes ws ∅ !! k) ↔ ∃ v, (k, v) ∈ ws.
Proof.
  rewrite lookup_apply_writes, lookup_empty. split.
  - destruct (last_write k ws) as [v|] eqn:Hl; [|by intros [??]].
    intros _. exists v. by apply last_write_elem.
  - intros [v Hv]. destruct (last_write k ws) as [v'|] eqn:Hl; [done|].
    by destruct (proj1 (last_write_None k ws) Hl v).
Qed.

(** X7.  The returned source map has a key exactly for every marker of a
    reached choice whose number is a position of the choice's citation
    list, and the key is the document identifier, an underscore and the
    number in decimal. *)
Theorem source_map_keys rs answer sources k :
  (run_aggregate rs).2 = Returned (answer, sources) →
  (is_Some (sources !! k) ↔
   ∃ doc_id completion cs1 c cs2 text K,
     (doc_id, completion) ∈ rs ∧
     response_json completion = Some (cs1 ++ c :: cs2) ∧
     Forall (λ c', content c' ≠ None) cs1 ∧
     content c = Some text ∧
     K ∈ (extract_doc_numbers text).1 ∧
     (1 ≤ K ≤ N.of_nat (length (citations c)))%N ∧
     k = doc_id +:+ "_" +:+ pretty K).
Proof.
  rewrite run_aggregate_outcome. intros [= _ <-].
  rewrite apply_writes_is_Some. split.
  - intros (v & ([d x] & Hw & Hr)%list_elem_of_bind).
    apply result_writes_elem in Hw
      as (c & text & K & cit & Hc & Htext & HK & H1 & Hcit & [= -> _]).
    unfold result_choices in Hc. simpl in Hc.
    destruct (response_json x) as [cs|] eqn:Hcs; [|by apply elem_of_nil in Hc].
    apply reached_elem_iff in Hc as (cs1 & cs2 & -> & Hall & _).
    exists d, x, cs1, c, cs2, text, K. split_and!; try done.
    apply lookup_lt_Some in Hcit. lia.
  - intros (d & x & cs1 & c & cs2 & text & K & Hr & Hcs & Hall & Htext & HK
            & [H1 Hlen] & ->).
    destruct (lookup_lt_is_Some_2 (citations c) (N.to_nat K - 1)) as [cit Hcit];
      [lia|].
    exists (clean_file_title (title cit)). apply list_elem_of_bind.
    exists (d, x). split; [|done]. apply result_writes_elem.
    exists c, text, K, cit. split_and!; try done.
    unfold result_choices. simpl. rewrite Hcs.
    apply reached_elem_iff. exists cs1, cs2. by rewrite Htext.
Qed.

Lemma source_map_keys_witness :
  let rs := [ ("7", answered "Two years [doc1], see [doc4]." ["A.pdf"; "B.pdf"]) ] in
  is_Some (({[ "7_1" := "A.pdf" ]} : gmap string string) !! "7_1") ↔
  ∃ doc_id completion cs1 c cs2 text K,
    (doc_id, completion) ∈ rs ∧
    response_json completion = Some (cs1 ++ c :: cs2) ∧
    Forall (λ c', content c' ≠ None) cs1 ∧
    content c = Some text ∧
    K ∈ (extract_doc_numbers text).1 ∧
    (1 ≤ K ≤ N.of_nat (length (citations c)))%N ∧
    "7_1" = doc_id +:+ "_" +:+ pretty K.
Proof.
  intros rs.
  apply (source_map_keys rs "Two years [doc1], see [doc4]."
           {[ "7_1" := "A.pdf" ]} "7_1").
  vm_compute. reflexivity.
Defined.

(** ** The shape of the answer *)

(** A string of white space. *)
Lemma rstrip_app_space s w :
  PyStr.rstrip w = "" → PyStr.rstrip (s +:+ w) = PyStr.rstrip s.
Proof.
  intros Hw. induction s as [|a s IH]; [done|]. rewrite app_cons. simpl.
  by rewrite IH.
Qed.

Lemma lstrip_app_space s w :
  PyStr.lstrip w = "" →
  PyStr.lstrip (s +:+ w) = match PyStr.lstrip s with "" => "" | t => t +:+ w end.
Proof.
  intros Hw. induction s as [|a s IH]; [done|]. rewrite app_cons. simpl.
  destruct (PyStr.isspace a); [done|]. done.
Qed.

Lemma strip_app_space s w :
  PyStr.lstrip w = "" → PyStr.rstrip w = "" →
  PyStr.strip (s +:+ w) = PyStr.strip s.
Proof.
  intros Hl Hr. unfold PyStr.strip. rewrite lstrip_app_space by done.
  destruct (PyStr.lstrip s) as [|a t]; [done|]. by apply rstrip_app_space.
Qed.

Lemma lstrip_nonspace a t :
  PyStr.isspace a = false → PyStr.lstrip (String a t) = String a t.
Proof. intros Ha. simpl. by rewrite Ha. Qed.

Lemma strip_idemp s : PyStr.strip (PyStr.strip s) = PyStr.strip s.
Proof.
  unfold PyStr.strip. destruct (PyStr.lstrip s) as [|a t] eqn:Hl; [done|].
  pose proof (lstrip_head _ _ _ Hl) as Ha.
  rewrite (rstrip_cons_nonspace a t Ha), (lstrip_nonspace _ _ Ha).
  rewrite <- (rstrip_cons_nonspace a t Ha). apply rstrip_idemp.
Qed.

(** X8.  With one contributing text the answer is that text, trimmed of
    leading and trailing white space. *)
Theorem single_contribution_is_the_answer rs doc_id text :
  valid_results (run_aggregate rs).1 = [(doc_id, text)] →
  ∃ sources, (run_aggregate rs).2 = Returned (PyStr.strip text, sources).
Proof.
  destruct (run_aggregate_frames rs) as [lg ->]. simpl. intros ->.
  eexists. do 2 f_equal. unfold joined_answer, answer_text. simpl.
  by apply strip_app_space.
Qed.

Lemma single_contribution_is_the_answer_witness :
  let text := " Two years [doc1]. " in
  let rs := [ ("7", answered text ["A.pdf"]);
              ("8", answered "no data on this [doc1]" ["B.pdf"]);
              ("9", {| response_json := None |}) ] in
  ∃ sources, (run_aggregate rs).2 = Returned ("Two years [doc1].", sources).
Proof.
  intros text rs.
  apply (single_contribution_is_the_answer rs "7" text).
  vm_compute. reflexivity.
Defined.

Lemma contains_nonempty_in_empty a s : PyStr.contains (String a s) "" = false.
Proof. done. Qed.

Lemma strip_of_marked_text text :
  (extract_doc_numbers text).1 ≠ [] → PyStr.strip text ≠ "".
Proof.
  unfold extract_doc_numbers, findall_doc.
  destruct (findall_from 0 text) as [|ds gs] eqn:Hall; [done|]. intros _.
  assert (ds ∈ findall_from 0 text) as Hin by (rewrite Hall; left).
  apply findall_from_sound in Hin as (pre & post & -> & _).
  pose proof (strip_occurs pre "[" ("doc" +:+ ds +:+ "]" +:+ post)) as Hocc.
  change (PyStr.strip "[") with "[" in Hocc.
  change (pre +:+ "[" +:+ "doc" +:+ ds +:+ "]" +:+ post)
    with (pre +:+ "[doc" +:+ ds +:+ "]" +:+ post) in Hocc.
  intros Hempty. by rewrite Hempty in Hocc.
Qed.

Lemma joined_answer_shape vs :
  (∀ d text, (d, text) ∈ vs → PyStr.strip text ≠ "") →
  joined_answer vs ≠ "" ∧ PyStr.strip (joined_answer vs) = joined_answer vs.
Proof.
  intros Hvs. destruct vs as [|[d text] vs]; [by vm_compute|]. split.
  - intros Hempty.
    assert (PyStr.contains (PyStr.strip text) (joined_answer ((d, text) :: vs))
            = true) as Hocc by (eapply joined_answer_contains; left).
    rewrite Hempty in Hocc.
    destruct (PyStr.strip text) as [|a s] eqn:Hs.
    + eapply Hvs; [left|done].
    + by rewrite contains_nonempty_in_empty in Hocc.
  - apply strip_idemp.
Qed.

(** ** The whole function *)

(** What the function returns once the identifiers are resolved. *)
Lemma run_search_resolved env arrival q doc_ids compound_id σ ids :
  resolve_doc_ids env doc_ids compound_id initial_state = (σ, Returned (Some ids)) →
  (run_search env arrival q doc_ids compound_id).2
  = match ids with
    | [] => Returned (no_documents_answer, ∅)
    | _ :: _ =>
        match omap (collected env q ids) arrival with
        | [] => Returned (no_results_answer, ∅)
        | r :: rs => (run_aggregate (r :: rs)).2
        end
    end.
Proof.
  intros Hres. destruct ids as [|d ids].
  - unfold run_search, search_documents. rewrite (bind_returned _ _ _ _ _ Hres).
    unfold search_resolved. by rewrite (bind_returned _ _ _ _ _ (logging_advance _ _)).
  - destruct (omap (collected env q (d :: ids)) arrival) as [|r rs] eqn:Hrs.
    + unfold run_search, search_documents. rewrite (bind_returned _ _ _ _ _ Hres).
      destruct (search_resolved_runs env arrival q (d :: ids) σ) as [lg ->]; [done|].
      destruct (resolve_doc_ids_state env doc_ids compound_id initial_state)
        as [lg0 Hσ].
      rewrite Hres in Hσ. simpl in Hσ. subst σ. by rewrite Hrs.
    + rewrite <- Hrs. apply (run_search_aggregates _ _ _ _ _ σ); [done..|].
      by rewrite Hrs.
Qed.

(** How the resolution of the identifiers ends. *)
Lemma resolve_doc_ids_raises env doc_ids compound_id σ :
  none_or_empty doc_ids = true → is_Some (truthy compound_id) →
  ipx_documents env = None →
  resolve_doc_ids env doc_ids compound_id σ
  = (advance σ [Error_select_query] [], Raised DatabaseError).
Proof.
  intros Hd [c Hc] Hrows. unfold resolve_doc_ids, select_indexed.
  rewrite Hd, Hc, Hrows. erewrite bind_raised; [done|].
  by rewrite (bind_returned _ _ _ _ _ (logging_advance _ σ)).
Qed.

Lemma resolve_doc_ids_returns env doc_ids compound_id σ :
  ¬ (none_or_empty doc_ids = true ∧ is_Some (truthy compound_id) ∧
     ipx_documents env = None) →
  ∃ σ' r, resolve_doc_ids env doc_ids compound_id σ = (σ', Returned r).
Proof.
  intros Hnot. destruct (none_or_empty doc_ids) eqn:Hd.
  - destruct (truthy compound_id) as [c|] eqn:Hc.
    + destruct (ipx_documents env) as [rows|] eqn:Hrows.
      * eexists _, _. by apply resolve_from_table.
      * by destruct Hnot.
    + eexists _, _. by apply resolve_nothing.
  - unfold resolve_doc_ids. rewrite Hd. by eexists _, _.
Qed.


Lemma result_valid_marked r d text :
  (d, text) ∈ result_valid r → PyStr.strip text ≠ "".
Proof.
  intros (_ & c & _ & _ & Hc)%result_valid_elem.
  apply strip_of_marked_text, extract_doc_numbers_flag_true.
  unfold contributes, has_citations in Hc.
  by apply andb_true_iff in Hc as [[? _]%andb_true_iff _].
Qed.

(** X10.  An answer that [search_documents] returns is never empty and
    has no white space at either end. *)
Theorem answer_is_never_empty env arrival q doc_ids compound_id answer sources :
  (run_search env arrival q doc_ids compound_id).2 = Returned (answer, sources) →
  answer ≠ "" ∧ PyStr.strip answer = answer.
Proof.
  intros Hret.
  destruct (decide (none_or_empty doc_ids = true ∧ is_Some (truthy compound_id) ∧
                    ipx_documents env = None)) as [(Hd & Hc & Hrows)|Hnot].
  { unfold run_search, search_documents in Hret.
    by rewrite (bind_raised _ _ _ _ _
                  (resolve_doc_ids_raises env doc_ids compound_id _ Hd Hc Hrows))
      in Hret. }
  destruct (resolve_doc_ids_returns env doc_ids compound_id initial_state Hnot)
    as (σ & [ids|] & Hres).
  - rewrite (run_search_resolved _ _ _ _ _ _ _ Hres) in Hret.
    destruct ids as [|d ids]; [by injection Hret as <- _|].
    destruct (omap _ _) as [|r rs]; [by injection Hret as <- _|].
    remember (r :: rs) as rs0 eqn:Hrs0.
    rewrite run_aggregate_outcome in Hret. injection Hret as <- _.
    apply joined_answer_shape. intros d' text ([d0 x] & Hin & _)%list_elem_of_bind.
    by eapply result_valid_marked.
  - unfold run_search, search_documents in Hret.
    rewrite (bind_returned _ _ _ _ _ Hres) in Hret. by injection Hret as <- _.
Qed.

Lemma answer_is_never_empty_witness :
  let env := {| ipx_documents := None;
                chat_completions_create := λ _ _ _,
                  Some (answered " Two years [doc1]. " ["A.pdf"]) |} in
  (run_search env [0%nat] "q" (Some ["7"]) None).2
  = Returned ("Two years [doc1].", {[ "7_1" := "A.pdf" ]}) ∧
  "Two years [doc1]." ≠ "" ∧ PyStr.strip "Two years [doc1]." = "Two years [doc1].".
Proof.
  intros env.
  assert ((run_search env [0%nat] "q" (Some ["7"]) None).2
          = Returned ("Two years [doc1].", {[ "7_1" := "A.pdf" ]})) as Hret
    by (vm_compute; reflexivity).
  split; [exact Hret|].
  exact (answer_is_never_empty env [0%nat] "q" (Some ["7"]) None _ _ Hret).
Defined.

(** ** The order of completion *)





(** X12.  Whatever the order of completion, the fan-out ends normally and
    has collected the completion of every request that succeeded, each
    once, and nothing else. *)
Theorem fan_out_collects_each_success_once env q ids arrival σ :
  arrival ≡ₚ seq 0 (length ids) →
  ∃ σ',
    fan_out env q ids arrival σ = (σ', Returned tt) ∧
    all_results σ' ≡ₚ
      all_results σ ++
      omap (λ n, doc_id ← ids !! n;
                 completion ← chat_completions_create env n q (index_name_of doc_id);
                 Some (doc_id, completion))
           (seq 0 (length ids)).
Proof.
  intros Hperm. destruct (fan_out_runs env q ids arrival σ) as [lg ->].
  eexists. split; [done|]. simpl. apply Permutation_app_head.
  by rewrite Hperm.
Qed.

Lemma fan_out_collects_each_success_once_witness :
  let env := {| ipx_documents := None;
                chat_completions_create := λ n _ _,
                  match n with
                  | 1%nat => None
                  | _ => Some (answered "Two years [doc1]." ["A.pdf"])
                  end |} in
  ∃ σ',
    fan_out env "q" ["7"; "8"; "9"] [2; 0; 1]%nat initial_state
    = (σ', Returned tt) ∧
    all_results σ' ≡ₚ
      all_results initial_state ++
      omap (λ n, doc_id ← ["7"; "8"; "9"] !! n;
                 completion ← chat_completions_create env n "q" (index_name_of doc_id);
                 Some (doc_id, completion))
           (seq 0 (length ["7"; "8"; "9"])).
Proof.
  intros env.
  apply (fan_out_collects_each_success_once env "q" ["7"; "8"; "9"]
           [2; 0; 1]%nat initial_state).
  simpl. apply (Permutation_cons_app [0%nat; 1%nat] [] 2%nat). reflexivity.
Defined.

(** * Names of the search resources *)

Lemma take_length n s : (String.length (PyText.take n s) ≤ n)%nat.
Proof.
  revert s. induction n as [|n IH]; intros [|c s]; simpl; try lia.
  specialize (IH s). lia.
Qed.

Lemma take_all n s : (String.length s ≤ n)%nat → PyText.take n s = s.
Proof.
  revert s. induction n as [|n IH]; intros [|c s]; simpl; try done; try lia.
  intros H. rewrite IH; [done|lia].
Qed.

Lemma take_nonempty n c s : PyText.take (S n) (String c s) ≠ "".
Proof. done. Qed.

Lemma all_chars_take p n s :
  PyText.all_chars p s = true → PyText.all_chars p (PyText.take n s) = true.
Proof.
  revert s. induction n as [|n IH]; intros [|c s]; simpl; try done.
  intros [-> ?]%andb_true_iff. by apply IH.
Qed.

Lemma all_chars_app p s t :
  PyText.all_chars p (s +:+ t) = PyText.all_chars p s && PyText.all_chars p t.
Proof.
  induction s as [|c s IH]; [done|]. rewrite app_cons. simpl.
  by rewrite IH, andb_assoc.
Qed.

Lemma all_chars_impl (p q : ascii → bool) s :
  (∀ c, p c = true → q c = true) →
  PyText.all_chars p s = true → PyText.all_chars q s = true.
Proof.
  intros Hpq. induction s as [|c s IH]; [done|]. simpl.
  intros [?%Hpq ?%IH]%andb_true_iff. by apply andb_true_iff.
Qed.

Lemma all_chars_lstrip_char p ch s :
  PyText.all_chars p s = true →
  PyText.all_chars p (PyText.lstrip_char ch s) = true.
Proof.
  induction s as [|c s IH]; [done|]. simpl. case_bool_decide; [|done].
  by intros [_ ?%IH]%andb_true_iff.
Qed.

Lemma all_chars_rstrip_char p ch s :
  PyText.all_chars p s = true →
  PyText.all_chars p (PyText.rstrip_char ch s) = true.
Proof.
  induction s as [|c s IH]; [done|]. simpl. intros [Hc Hs%IH]%andb_true_iff.
  destruct (PyText.rstrip_char ch s) as [|c' t].
  - case_bool_decide; [done|]. simpl. by rewrite Hc.
  - change (PyText.all_chars p (String c (String c' t)))
      with (p c && PyText.all_chars p (String c' t)). by rewrite Hc.
Qed.

Lemma replace_invalid_valid s :
  PyText.all_chars is_name_char (replace_invalid s) = true.
Proof.
  induction s as [|c s IH]; [done|]. simpl. rewrite IH, andb_true_r.
  by destruct (is_name_char c) eqn:Hc.
Qed.

Lemma replace_invalid_id s :
  PyText.all_chars is_name_char s = true → replace_invalid (PyStr.lower s) = s.
Proof.
  induction s as [|c s IH]; [done|]. simpl. intros [Hc Hs]%andb_true_iff.
  rewrite (IH Hs). f_equal. revert Hc.
  by destruct c as [[] [] [] [] [] [] [] []].
Qed.





Lemma lstrip_char_head ch s c t : PyText.lstrip_char ch s = String c t → c ≠ ch.
Proof.
  induction s as [|b s IH]; [done|]. simpl. case_bool_decide; [done|].
  by intros [= <- _].
Qed.

Lemma lstrip_char_id ch c t : c ≠ ch → PyText.lstrip_char ch (String c t) = String c t.
Proof. intros Hc. simpl. by rewrite bool_decide_eq_false_2. Qed.

Lemma rstrip_char_cons_other ch c t :
  c ≠ ch → PyText.rstrip_char ch (String c t) = String c (PyText.rstrip_char ch t).
Proof.
  intros Hc. simpl. destruct (PyText.rstrip_char ch t); [|done].
  by rewrite bool_decide_eq_false_2.
Qed.

Lemma rstrip_char_cons_nonempty ch c t :
  PyText.rstrip_char ch t ≠ "" →
  PyText.rstrip_char ch (String c t) = String c (PyText.rstrip_char ch t).
Proof. intros Ht. simpl. by destruct (PyText.rstrip_char ch t). Qed.


Lemma rstrip_char_keep ch x t :
  PyText.rstrip_char ch t = t → t ≠ "" →
  PyText.rstrip_char ch (x +:+ t) = x +:+ t.
Proof.
  intros Ht Hne. induction x as [|c x IH]; [done|].
  rewrite app_cons, rstrip_char_cons_nonempty; rewrite IH; [done|].
  destruct x; [done|done].
Qed.


Lemma strip_char_head ch s c t : PyText.strip_char ch s = String c t → c ≠ ch.
Proof.
  unfold PyText.strip_char.
  destruct (PyText.lstrip_char ch s) as [|b u] eqn:Hl; [done|].
  pose proof (lstrip_char_head _ _ _ _ Hl) as Hb.
  rewrite (rstrip_char_cons_other _ _ _ Hb). by intros [= <- _].
Qed.


Lemma is_hex_is_name c : is_hex_char c = true → is_name_char c = true.
Proof. by destruct c as [[] [] [] [] [] [] [] []]. Qed.



(** X13.  Whatever the name, [sanitize_name] gives a string that is not
    empty, has at most 128 characters, all of them lower-case letters,
    digits or dashes, and does not begin with a dash (given that the digest
    is made of hexadecimal digits). *)
Theorem sanitized_name_is_valid md5_hexdigest name :
  PyText.all_chars is_hex_char (md5_hexdigest name) = true →
  let sanitized := sanitize_name md5_hexdigest name in
  sanitized ≠ "" ∧
  (String.length sanitized ≤ 128)%nat ∧
  PyText.all_chars is_name_char sanitized = true ∧
  PyText.lstrip_char "-" sanitized = sanitized.
Proof.
  intros Hhex. unfold sanitize_name.
  set (s := PyText.strip_char "-" (replace_invalid (PyStr.lower name))).
  assert (PyText.all_chars is_name_char s = true) as Hs.
  { apply all_chars_rstrip_char, all_chars_lstrip_char, replace_invalid_valid. }
  cbv zeta. split_and!.
  - case_bool_decide as He; [done|]. by destruct s.
  - apply take_length.
  - apply all_chars_take. case_bool_decide; [|done].
    rewrite all_chars_app. apply andb_true_iff. split; [done|].
    apply all_chars_take. by eapply all_chars_impl; [apply is_hex_is_name|].
  - case_bool_decide as He; [done|].
    destruct s as [|c t] eqn:Heq; [done|].
    apply strip_char_head in Heq.
    change (PyText.take 128 (String c t)) with (String c (PyText.take 127 t)).
    by apply lstrip_char_id.
Qed.

Lemma sanitized_name_is_valid_witness :
  let md5 := λ _ : string, "9e107d9d372bb6826bd81d3542a419d6" in
  let sanitized := sanitize_name md5 "--My Report (v2).PDF--" in
  sanitized ≠ "" ∧
  (String.length sanitized ≤ 128)%nat ∧
  PyText.all_chars is_name_char sanitized = true ∧
  PyText.lstrip_char "-" sanitized = sanitized.
Proof.
  intros md5. apply (sanitized_name_is_valid md5 "--My Report (v2).PDF--").
  reflexivity.
Defined.



(** The cut to 128 characters comes after the dashes are stripped: a
    longer name can end in a dash. *)
Example sanitize_long_name_ends_in_dash :
  let name := PyText.take 127
    "aaaaaaaaaaaaaaaaaaaaaaaaaaaaaaaaaaaaaaaaaaaaaaaaaaaaaaaaaaaaaaaaaaaaaaaaaaaaaaaaaaaaaaaaaaaaaaaaaaaaaaaaaaaaaaaaaaaaaaaaaaaaaaaaaaaaaaaaaaaaaaaaaa"
    +:+ " b" in
  PyText.rstrip_char "-" (sanitize_name (λ _, "") name)
  ≠ sanitize_name (λ _, "") name.
Proof. by vm_compute. Qed.

(** ** The index of a document *)

Lemma pretty_N_char_digit x :
  is_name_char (pretty_N_char x) = true ∧ pretty_N_char x ≠ "-"%char.
Proof. unfold pretty_N_char. by repeat case_match. Qed.

Lemma pretty_N_go_chars x s :
  PyText.all_chars is_name_char s = true →
  PyText.rstrip_char "-" s = s →
  PyText.all_chars is_name_char (pretty_N_go x s) = true ∧
  PyText.rstrip_char "-" (pretty_N_go x s) = pretty_N_go x s.
Proof.
  revert s. induction (N.lt_wf_0 x) as [x _ IH]; intros s Hs Hr.
  destruct (decide (x = 0)%N) as [->|Hx]; [by rewrite pretty_N_go_0|].
  rewrite pretty_N_go_step by lia.
  destruct (pretty_N_char_digit (x `mod` 10)%N) as [Hc Hd].
  apply IH.
  - apply N.div_lt; lia.
  - simpl. by rewrite Hc, Hs.
  - rewrite (rstrip_char_cons_other _ _ _ Hd). by rewrite Hr.
Qed.

Lemma pretty_N_go_nonempty x s : s ≠ "" → pretty_N_go x s ≠ "".
Proof.
  revert s. induction (N.lt_wf_0 x) as [x _ IH]; intros s Hs.
  destruct (decide (x = 0)%N) as [->|Hx]; [by rewrite pretty_N_go_0|].
  rewrite pretty_N_go_step by lia. apply IH; [apply N.div_lt; lia|done].
Qed.

Lemma pretty_N_chars (n : N) :
  pretty n ≠ "" ∧
  PyText.all_chars is_name_char (pretty n) = true ∧
  PyText.rstrip_char "-" (pretty n) = pretty n.
Proof.
  unfold pretty, pretty_N. case_decide as Hn; [done|].
  destruct (pretty_N_go_chars n "") as [? ?]; [done..|]. split; [|done].
  rewrite pretty_N_go_step by lia. by apply pretty_N_go_nonempty.
Qed.

Lemma pretty_Z_chars (z : Z) :
  pretty z ≠ "" ∧
  PyText.all_chars is_name_char (pretty z) = true ∧
  PyText.rstrip_char "-" (pretty z) = pretty z.
Proof.
  unfold pretty at 1 2 3 4, pretty_Z. destruct z as [|p|p]; [done| |].
  - apply (pretty_N_chars (N.pos p)).
  - destruct (pretty_N_chars (N.pos p)) as (Hne & Hall & Hr).
    change (pretty p) with (pretty (N.pos p)). split_and!.
    + done.
    + by rewrite all_chars_app, Hall.
    + by apply rstrip_char_keep.
Qed.

(** X15.  The index that the search addresses for a document of the table
    is the index that the upload made for it: [sanitize_name], which the
    upload applies to "index-doc-" followed by the identifier, leaves that
    name as it is (for an identifier of at most 118 characters). *)
Theorem search_addresses_the_uploaded_index md5_hexdigest (r : document_row) :
  (String.length (pretty (row_id r)) ≤ 118)%nat →
  sanitize_name md5_hexdigest (index_name_of (pretty (row_id r)))
  = index_name_of (pretty (row_id r)).
Proof.
  intros Hlen. destruct (pretty_Z_chars (row_id r)) as (Hne & Hall & Hr).
  unfold sanitize_name, index_name_of.
  set (p := pretty (row_id r)) in *.
  assert (PyText.all_chars is_name_char ("index-doc-" +:+ p) = true) as Hvalid
    by (by rewrite all_chars_app, Hall).
  rewrite (replace_invalid_id _ Hvalid).
  assert (PyText.strip_char "-" ("index-doc-" +:+ p) = "index-doc-" +:+ p) as ->.
  { unfold PyText.strip_char.
    change (PyText.lstrip_char "-" ("index-doc-" +:+ p)) with ("index-doc-" +:+ p).
    by apply rstrip_char_keep. }
  cbv zeta. rewrite bool_decide_eq_false_2 by done.
  apply take_all.
  change ("index-doc-" +:+ p)
    with (String "i" (String "n" (String "d" (String "e" (String "x"
          (String "-" (String "d" (String "o" (String "c" (String "-" p)))))))))).
  simpl. lia.
Qed.

Lemma search_addresses_the_uploaded_index_witness :
  let r := {| row_id := 42; row_compound_id := "acme"; row_status := "indexed" |} in
  sanitize_name (λ _, "") (index_name_of (pretty (row_id r))) = "index-doc-42".
Proof.
  intros r. apply (search_addresses_the_uploaded_index (λ _, "") r).
  vm_compute. lia.
Defined.

(** * The connection manager *)

Lemma get_instance_keeps m :
  one_instance_at_most m →
  one_instance_at_most (get_instance m).1 ∧
  ((get_instance m).2 = None ∨ (get_instance m).2 = Some 0%nat).
Proof.
  unfold get_instance, one_instance_at_most.
  destruct (_connection_string m); [|by auto].
  intros [[Hi Hc]|[Hi Hc]]; rewrite Hi; simpl; rewrite ?Hi, ?Hc; auto.
Qed.

Lemma run_calls_keeps calls m :
  one_instance_at_most m →
  one_instance_at_most (run_calls calls m).1 ∧
  Forall (λ r, r = None ∨ r = Some 0%nat) (run_calls calls m).2.
Proof.
  revert m. induction calls as [|[s|] calls IH]; intros m Hm; simpl.
  - by split.
  - by apply IH.
  - destruct (get_instance_keeps m Hm) as [Hm' Hr].
    destruct (get_instance m) as [m' r]. simpl in *.
    destruct (IH m' Hm') as [? ?].
    destruct (run_calls calls m') as [m'' rs]. simpl in *.
    split; [done|]. by constructor.
Qed.

(** X16.  Whatever the sequence of calls to [initialize] and
    [get_instance] on the class, at most one instance is ever made, and
    every call to [get_instance] that does not raise returns that same
    instance. *)
Theorem manager_is_a_singleton calls i j :
  Some i ∈ (run_calls calls manager_class).2 →
  Some j ∈ (run_calls calls manager_class).2 →
  i = j ∧ (created (run_calls calls manager_class).1 ≤ 1)%nat.
Proof.
  destruct (run_calls_keeps calls manager_class) as [Hm Hrs]; [by left|].
  rewrite Forall_forall in Hrs. intros Hi%Hrs Hj%Hrs.
  destruct Hi as [|[= ->]], Hj as [|[= ->]]; try done.
  split; [done|]. destruct Hm as [[_ ->]|[_ ->]]; lia.
Qed.

Lemma manager_is_a_singleton_witness :
  let calls := [ GetInstance; Initialize (Some "DRIVER=x"); GetInstance;
                 Initialize (Some "DRIVER=y"); GetInstance;
                 Initialize None; GetInstance ] in
  (run_calls calls manager_class).2 = [None; Some 0; Some 0; None]%nat ∧
  0%nat = 0%nat ∧ (created (run_calls calls manager_class).1 ≤ 1)%nat.
Proof.
  intros calls. split; [reflexivity|].
  apply (manager_is_a_singleton calls 0 0); right; left.
Defined.

(** * The indexing-status poller *)

Lemma poll_once_goes_on env attempt st st' :
  poll_once env attempt st = (st', false) →
  st' = slept (polled st) ∧
  (conclusive (get_indexer_status env attempt) = true →
   execute_update_ok env attempt = false).
Proof.
  unfold poll_once, conclusive.
  destruct (get_indexer_status env attempt) as [|[r|]];
    [by intros [= <-] | | by intros [= <-]].
  destruct (execute_update_ok env attempt);
    repeat case_bool_decide; simpl; by intros [= <-].
Qed.

Lemma poll_once_returns env attempt st st' :
  poll_once env attempt st = (st', true) →
  ∃ r, get_indexer_status env attempt = Polled (Some r) ∧
       conclusive (get_indexer_status env attempt) = true ∧
       execute_update_ok env attempt = true ∧
       polls st' = S (polls st) ∧ sleeps st' = sleeps st ∧
       writes st' = S (writes st) ∧
       (doc_status st' = "indexed" ∨ doc_status st' = "warning" ∨
        doc_status st' = "failed") ∧
       (doc_status st' = "indexed" ↔ result_status r = "success").
Proof.
  unfold poll_once.
  destruct (get_indexer_status env attempt) as [|[r|]] eqn:Hp; [done| |done].
  intros H. exists r. unfold conclusive. revert H.
  destruct (execute_update_ok env attempt);
    repeat case_bool_decide; simpl; try done; intros [= <-]; simpl;
    split_and!; try done; auto.
Qed.

Lemma poll_loop_goes_on env a k st st' :
  poll_loop env a k st = (st', false) →
  doc_status st' = doc_status st ∧
  doc_error_message st' = doc_error_message st ∧
  polls st' = (polls st + k)%nat ∧ sleeps st' = (sleeps st + k)%nat ∧
  writes st' = writes st ∧
  ∀ i, (i < k)%nat → conclusive (get_indexer_status env (a + i)) = true →
       execute_update_ok env (a + i) = false.
Proof.
  revert a st. induction k as [|k IH]; intros a st; simpl.
  - intros [= <-]. split_and!; try done; try lia; intros i Hi; lia.
  - destruct (poll_once env a st) as [st1 [|]] eqn:Hone; [done|].
    apply poll_once_goes_on in Hone as [-> Hfail].
    intros (Hs & He & Hp & Hsl & Hw & Hrest)%IH. simpl in *.
    split_and!; try done; try lia.
    intros [|i] Hi.
    + by rewrite Nat.add_0_r.
    + replace (a + S i)%nat with (S a + i)%nat by lia. apply Hrest. lia.
Qed.

Lemma poll_loop_returns env a k st st' :
  poll_loop env a k st = (st', true) →
  ∃ j r,
    (j < k)%nat ∧
    get_indexer_status env (a + j) = Polled (Some r) ∧
    conclusive (get_indexer_status env (a + j)) = true ∧
    execute_update_ok env (a + j) = true ∧
    (∀ i, (i < j)%nat → conclusive (get_indexer_status env (a + i)) = true →
          execute_update_ok env (a + i) = false) ∧
    polls st' = (polls st + S j)%nat ∧ sleeps st' = (sleeps st + j)%nat ∧
    writes st' = S (writes st) ∧
    (doc_status st' = "indexed" ∨ doc_status st' = "warning" ∨
     doc_status st' = "failed") ∧
    (doc_status st' = "indexed" ↔ result_status r = "success").
Proof.
  revert a st. induction k as [|k IH]; intros a st; simpl; [done|].
  destruct (poll_once env a st) as [st1 [|]] eqn:Hone.
  - intros [= <-].
    apply poll_once_returns in Hone
      as (r & Hp & Hc & Hu & Hpo & Hsl & Hw & Hst & Hix).
    exists 0%nat, r. rewrite Nat.add_0_r.
    split_and!; try done; try lia; intros i Hi; lia.
  - apply poll_once_goes_on in Hone as [-> Hfail].
    intros (j & r & Hj & Hp & Hc & Hu & Hbefore & Hpo & Hsl & Hw & Hst & Hix)%IH.
    exists (S j), r. replace (a + S j)%nat with (S a + j)%nat by lia.
    simpl in *. split_and!; try done; try lia.
    intros [|i] Hi.
    + by rewrite Nat.add_0_r.
    + replace (a + S i)%nat with (S a + i)%nat by lia. apply Hbefore. lia.
Qed.

Lemma get_instance_returns m :
  is_Some (_connection_string m) → ∃ db, (get_instance m).2 = Some db.
Proof.
  intros [s Hs]. unfold get_instance. rewrite Hs.
  destruct (_instance m); simpl; eauto.
Qed.

(** X17.  The poller writes the status 'indexed', the one that the
    resolution of the identifiers asks for, only on a poll whose last
    result is 'success'. *)
Theorem indexed_only_after_success env m max_retries st :
  doc_status (check_indexer_status env m max_retries st).1 = "indexed" →
  doc_status st = "indexed" ∨
  ∃ attempt last_result,
    (attempt < max_retries)%nat ∧
    get_indexer_status env attempt = Polled (Some last_result) ∧
    result_status last_result = "success" ∧
    execute_update_ok env attempt = true.
Proof.
  unfold check_indexer_status.
  destruct (get_instance m).2 as [db|]; [|by left].
  destruct (poll_loop env 0 max_retries st) as [st' [|]] eqn:Hloop.
  - apply poll_loop_returns in Hloop
      as (j & r & Hj & Hp & _ & Hu & _ & _ & _ & _ & _ & Hix).
    change (0 + j)%nat with j in Hp, Hu. simpl. intros Hst%Hix. right. by exists j, r.
  - apply poll_loop_goes_on in Hloop as (Hs & _).
    destruct (execute_update_ok env max_retries); simpl; [done|].
    rewrite Hs. by left.
Qed.

Lemma indexed_only_after_success_witness :
  let env := {| get_indexer_status := λ attempt,
                  match attempt with
                  | 0%nat => Poll_raises
                  | 1%nat => Polled None
                  | _ => Polled (Some {| result_status := "success";
                                         result_error_message := None |})
                  end;
                execute_update_ok := λ _, true |} in
  let st := {| doc_status := "processing"; doc_error_message := None;
               polls := 0; sleeps := 0; writes := 0 |} in
  let m := initialize (Some "Driver=x") manager_class in
  doc_status (check_indexer_status env m 12 st).1 = "indexed" ∧
  ∃ attempt last_result,
    (attempt < 12)%nat ∧
    get_indexer_status env attempt = Polled (Some last_result) ∧
    result_status last_result = "success" ∧
    execute_update_ok env attempt = true.
Proof.
  intros env st m. split; [reflexivity|].
  destruct (indexed_only_after_success env m 12 st) as [Hst|H];
    [reflexivity|discriminate Hst|exact H].
Defined.

(** X18.  With the manager initialised and the updates going through, the
    poller returns after exactly one write to the row; the status it
    leaves is one of 'indexed', 'warning', 'failed' and 'timeout', and it
    is 'timeout' exactly when none of the [max_retries] polls is
    conclusive; the poller has then polled and slept [max_retries]
    times. *)
Theorem poller_writes_once env m max_retries st :
  is_Some (_connection_string m) →
  (∀ attempt, execute_update_ok env attempt = true) →
  ∃ st',
    check_indexer_status env m max_retries st = (st', true) ∧
    writes st' = S (writes st) ∧
    (polls st' ≤ polls st + max_retries)%nat ∧
    (doc_status st' = "indexed" ∨ doc_status st' = "warning" ∨
     doc_status st' = "failed" ∨ doc_status st' = "timeout") ∧
    (doc_status st' = "timeout" ↔
     ∀ attempt, (attempt < max_retries)%nat →
                conclusive (get_indexer_status env attempt) = false) ∧
    (doc_status st' = "timeout" →
     polls st' = (polls st + max_retries)%nat ∧
     sleeps st' = (sleeps st + max_retries)%nat).
Proof.
  intros Hm Hok. unfold check_indexer_status.
  destruct (get_instance_returns m Hm) as [db ->].
  destruct (poll_loop env 0 max_retries st) as [st' [|]] eqn:Hloop.
  - apply poll_loop_returns in Hloop
      as (j & r & Hj & Hp & Hc & _ & _ & Hpo & Hsl & Hw & Hst & _).
    change (0 + j)%nat with j in Hc. exists st'. split_and!; try done; try lia.
    + destruct Hst as [?|[?|?]]; auto.
    + split.
      * intros Ht. destruct Hst as [?|[?|?]]; congruence.
      * intros Hnone. rewrite (Hnone j Hj) in Hc. done.
    + intros Ht. destruct Hst as [?|[?|?]]; congruence.
  - apply poll_loop_goes_on in Hloop as (Hs & He & Hpo & Hsl & Hw & Hfail).
    rewrite Hok. eexists. split; [done|]. simpl.
    split_and!; try done; try lia; auto.
    split; [|done]. intros _ attempt Hattempt.
    destruct (conclusive (get_indexer_status env attempt)) eqn:Hc; [|done].
    specialize (Hfail attempt Hattempt Hc). by rewrite Hok in Hfail.
Qed.

Lemma poller_writes_once_witness :
  let env := {| get_indexer_status := λ attempt,
                  match attempt with
                  | 0%nat => Poll_raises
                  | 1%nat => Polled None
                  | _ => Polled (Some {| result_status := "failed";
                                         result_error_message := Some "" |})
                  end;
                execute_update_ok := λ _, true |} in
  let st := {| doc_status := "processing"; doc_error_message := None;
               polls := 0; sleeps := 0; writes := 0 |} in
  let m := initialize (Some "Driver=x") manager_class in
  check_indexer_status env m 12 st
  = ({| doc_status := "failed";
        doc_error_message := Some "Indexer failed: Unknown error";
        polls := 3; sleeps := 2; writes := 1 |}, true) ∧
  ∃ st',
    check_indexer_status env m 12 st = (st', true) ∧
    writes st' = S (writes st) ∧
    (polls st' ≤ polls st + 12)%nat ∧
    (doc_status st' = "indexed" ∨ doc_status st' = "warning" ∨
     doc_status st' = "failed" ∨ doc_status st' = "timeout") ∧
    (doc_status st' = "timeout" ↔
     ∀ attempt, (attempt < 12)%nat →
                conclusive (get_indexer_status env attempt) = false) ∧
    (doc_status st' = "timeout" →
     polls st' = (polls st + 12)%nat ∧ sleeps st' = (sleeps st + 12)%nat).
Proof.
  intros env st m. split; [reflexivity|].
  apply (poller_writes_once env m 12 st); [by eexists|reflexivity].
Defined.

(** X19.  Whatever fails, the poller polls and sleeps at most
    [max_retries] times and writes to the row at most once; when it
    raises, the row is as it was. *)
Theorem poller_is_bounded env m max_retries st :
  let '(st', returned) := check_indexer_status env m max_retries st in
  (polls st' ≤ polls st + max_retries)%nat ∧
  (sleeps st' ≤ sleeps st + max_retries)%nat ∧
  (writes st' ≤ S (writes st))%nat ∧
  (returned = false →
   doc_status st' = doc_status st ∧
   doc_error_message st' = doc_error_message st ∧
   writes st' = writes st).
Proof.
  unfold check_indexer_status.
  destruct (get_instance m).2 as [db|]; [|split_and!; try done; lia].
  destruct (poll_loop env 0 max_retries st) as [st' [|]] eqn:Hloop.
  - apply poll_loop_returns in Hloop
      as (j & r & Hj & _ & _ & _ & _ & Hpo & Hsl & Hw & _).
    split_and!; try done; lia.
  - apply poll_loop_goes_on in Hloop as (Hs & He & Hpo & Hsl & Hw & _).
    destruct (execute_update_ok env max_retries); simpl;
      split_and!; try done; lia.
Qed.
